(** * Polling application: the voting service, poll deletion and the
      poll-creation endpoint

    A shallow embedding of [lib/votes.ts] ([submitVote], [hasUserVoted],
    [getPollResults], [subscribeToResults]), of [deletePoll] from
    [lib/polls.ts] and of the [POST] handler of [app/api/polls/route.ts].

    The hosted relational store is a collaborator of the code.  It is
    modelled here as two tables of rows with the constraints that the
    schema of the README declares (primary key on [polls.id], unique
    [(poll_id, user_id)] on [votes], [votes.poll_id] referencing [polls.id]
    with cascading delete), a script that says which of the coming round
    trips to the store fail, and a queue of change events for the realtime
    channels.  Row-level security is not modelled: every request is run on
    behalf of a user the policies let through. *)

From stdpp Require Import base decidable option list strings.
From Stdlib Require Import ZArith Lia.

(** ** Rows of the two tables *)

(** [Database['public']['Tables']['polls']['Row']].  Timestamps are epoch
    milliseconds; [options] is the JSON array the code casts to
    [string[]]. *)
Record Poll := mkPoll {
  poll_id : string;
  poll_created_at : Z;
  question : string;
  options : list string;
  created_by : string;
  expires_at : option Z;
  is_public : bool
}.

(** [Database['public']['Tables']['votes']['Row']].  The identifier is
    generated by the store; [option_index] is an [INTEGER] column, and the
    [optionIndex] of a submission is taken to be an integer as well. *)
Record Vote := mkVote {
  vote_id : nat;
  vote_created_at : Z;
  vote_poll_id : string;
  user_id : string;
  option_index : Z
}.

(** ** Errors *)

(** What the store's client reports in the [error] field of a response. *)
Inductive PostgrestError :=
  | NotSingleRow          (* .single() on zero or on several rows *)
  | UniqueViolation       (* 23505: a second row for (poll_id, user_id) *)
  | ForeignKeyViolation   (* 23503: a vote for a poll that is not there *)
  | RequestFailed.        (* the round trip itself failed *)

(** The [error] field of what the service returns: either an [Error] object the
    service builds itself from a message, or the store's error handed
    through as it is. *)
Inductive Error :=
  | JsError (message : string)
  | StoreError (e : PostgrestError).

Global Instance PostgrestError_eq_dec : EqDecision PostgrestError.
Proof. solve_decision. Defined.
Global Instance Error_eq_dec : EqDecision Error.
Proof. solve_decision. Defined.

Definition AlreadyVoted : Error := JsError "User has already voted on this poll".
Definition PollNotFound : Error := JsError "Poll not found".
Definition PollExpired : Error := JsError "Poll has expired".
Definition InvalidOption : Error := JsError "Invalid option index".
Definition NotAuthorized : Error := JsError "Not authorized to delete this poll".

(** ** Values of the results array *)

(** An element of the JavaScript array that [getPollResults] builds: a
    count, the [NaN] that incrementing [undefined] yields, or a hole left
    by a write past the end. *)
Inductive JsVal :=
  | Num (n : Z)
  | NaN
  | Hole.

(** ** The world the service runs in *)

(** A realtime channel opened by [subscribeToResults]. *)
Record Channel := mkChannel {
  topic : string;
  watched_poll : string;
  joined : bool
}.

Record World := mkWorld {
  polls : list Poll;
  votes : list Vote;
  next_vote_id : nat;
  clock : Z;                          (* what [new Date()] reads *)
  outages : list bool;                (* [true]: that round trip fails *)
  channels : list Channel;            (* handle = position *)
  pending : list string;              (* change events, by poll id *)
  updates : list (nat * list JsVal)   (* calls of [onUpdate], by handle *)
}.

Definition set_polls (ps : list Poll) (w : World) : World :=
  mkWorld ps (votes w) (next_vote_id w) (clock w) (outages w)
          (channels w) (pending w) (updates w).
Definition set_votes (vs : list Vote) (w : World) : World :=
  mkWorld (polls w) vs (next_vote_id w) (clock w) (outages w)
          (channels w) (pending w) (updates w).
Definition set_next_vote_id (n : nat) (w : World) : World :=
  mkWorld (polls w) (votes w) n (clock w) (outages w)
          (channels w) (pending w) (updates w).
Definition set_outages (os : list bool) (w : World) : World :=
  mkWorld (polls w) (votes w) (next_vote_id w) (clock w) os
          (channels w) (pending w) (updates w).
Definition set_channels (cs : list Channel) (w : World) : World :=
  mkWorld (polls w) (votes w) (next_vote_id w) (clock w) (outages w)
          cs (pending w) (updates w).
Definition set_pending (es : list string) (w : World) : World :=
  mkWorld (polls w) (votes w) (next_vote_id w) (clock w) (outages w)
          (channels w) es (updates w).
Definition set_updates (us : list (nat * list JsVal)) (w : World) : World :=
  mkWorld (polls w) (votes w) (next_vote_id w) (clock w) (outages w)
          (channels w) (pending w) us.

(** ** Computations that talk to the store *)

Definition M (A : Type) : Type := World → A * World.

Definition ret {A} (a : A) : M A := λ w, (a, w).

Definition bind {A B} (m : M A) (k : A → M B) : M B :=
  λ w, let (a, w') := m w in k a w'.

Notation "'let*' x ':=' m 'in' k" := (bind m (λ x, k))
  (at level 10, x name, m at level 100, k at level 200).

(** The [{ data, error }] object every query resolves to. *)
Record Response (A : Type) := mkResponse {
  data : option A;
  error : option PostgrestError
}.
Arguments mkResponse {A} _ _.
Arguments data {A} _.
Arguments error {A} _.

Definition ok {A} (a : A) : Response A := mkResponse (Some a) None.
Definition failed {A} (e : PostgrestError) : Response A := mkResponse None (Some e).

(** One round trip: consumes the next entry of the outage script and tells
    whether the request is lost. *)
Definition round_trip : M bool :=
  λ w, match outages w with
       | [] => (false, w)
       | lost :: rest => (lost, set_outages rest w)
       end.

(** [.single()]: exactly one row, or the error of the client. *)
Definition single {A} (rows : list A) : Response A :=
  match rows with
  | [row] => ok row
  | _ => failed NotSingleRow
  end.

Definition votes_of (pollId : string) (vs : list Vote) : list Vote :=
  filter (λ v, vote_poll_id v = pollId) vs.

Definition votes_by (pollId userId : string) (vs : list Vote) : list Vote :=
  filter (λ v, vote_poll_id v = pollId ∧ user_id v = userId) vs.

Definition polls_with (id : string) (ps : list Poll) : list Poll :=
  filter (λ p, poll_id p = id) ps.

(** [from('votes').select('id').eq('poll_id', _).eq('user_id', _).single()] *)
Definition select_vote_id (pollId userId : string) : M (Response nat) :=
  let* lost := round_trip in
  if (lost : bool) then ret (failed RequestFailed)
  else λ w, (single (vote_id <$> votes_by pollId userId (votes w)), w).

(** [from('polls').select(...).eq('id', _).single()] *)
Definition select_poll (id : string) : M (Response Poll) :=
  let* lost := round_trip in
  if (lost : bool) then ret (failed RequestFailed)
  else λ w, (single (polls_with id (polls w)), w).

(** [from('votes').select('option_index').eq('poll_id', _)] *)
Definition select_option_indices (pollId : string) : M (Response (list Z)) :=
  let* lost := round_trip in
  if (lost : bool) then ret (failed RequestFailed)
  else λ w, (ok (option_index <$> votes_of pollId (votes w)), w).

(** [from('votes').insert({...}).select().single()].  The store checks the
    unique constraint and the foreign key, gives the row its identifier
    and timestamp, and queues a change event for the poll. *)
Definition insert_vote (pollId userId : string) (optionIndex : Z)
  : M (Response Vote) :=
  let* lost := round_trip in
  if (lost : bool) then ret (failed RequestFailed)
  else λ w,
    match votes_by pollId userId (votes w), polls_with pollId (polls w) with
    | _ :: _, _ => (failed UniqueViolation, w)
    | [], [] => (failed ForeignKeyViolation, w)
    | [], _ :: _ =>
        let row := mkVote (next_vote_id w) (clock w) pollId userId optionIndex in
        (ok row,
         set_pending (pending w ++ [pollId])
           (set_next_vote_id (S (next_vote_id w))
              (set_votes (votes w ++ [row]) w)))
    end.

(** [from('votes').delete().eq('poll_id', _)]: one change event per row
    deleted. *)
Definition delete_votes (pollId : string) : M (Response unit) :=
  let* lost := round_trip in
  if (lost : bool) then ret (failed RequestFailed)
  else λ w,
    (ok (),
     set_pending (pending w ++ (vote_poll_id <$> votes_of pollId (votes w)))
       (set_votes (filter (λ v, vote_poll_id v ≠ pollId) (votes w)) w)).

(** [from('polls').delete().eq('id', _)]: the votes that reference the poll
    go with it ([ON DELETE CASCADE]). *)
Definition delete_poll_row (id : string) : M (Response unit) :=
  let* lost := round_trip in
  if (lost : bool) then ret (failed RequestFailed)
  else λ w,
    (ok (),
     set_pending (pending w ++ (vote_poll_id <$> votes_of id (votes w)))
       (set_votes (filter (λ v, vote_poll_id v ≠ id) (votes w))
          (set_polls (filter (λ p, poll_id p ≠ id) (polls w)) w))).

(** ** lib/votes.ts *)

(** [!!vote] *)
Definition truthy {A} (x : option A) : bool :=
  match x with
  | Some _ => true
  | None => false
  end.

(** [hasUserVoted]: [false] on any error of the lookup, otherwise whether a
    row came back. *)
Definition hasUserVoted (pollId userId : string) : M bool :=
  let* r := select_vote_id pollId userId in
  match error r with
  | Some _ => ret false
  | None => ret (truthy (data r))
  end.

(** What [submitVote] resolves to: [{ vote, error }]. *)
Record SubmitResult := mkSubmit {
  vote : option Vote;
  submit_error : option Error
}.

Definition rejected (e : Error) : SubmitResult := mkSubmit None (Some e).

(** [poll.expires_at && new Date(poll.expires_at) < new Date()] *)
Definition expired (poll : Poll) (now : Z) : bool :=
  match expires_at poll with
  | Some t => (t <? now)%Z
  | None => false
  end.

(** [optionIndex < 0 || optionIndex >= options.length] *)
Definition out_of_range (optionIndex : Z) (poll : Poll) : bool :=
  (optionIndex <? 0)%Z || (Z.of_nat (length (options poll)) <=? optionIndex)%Z.

Definition new_Date : M Z := λ w, (clock w, w).

(** The four checks of [submitVote], up to the insert: the error of the
    first check that fails, or [None] when all pass. *)
Definition submitVote_checks (pollId userId : string) (optionIndex : Z)
  : M (option Error) :=
  let* existingVote := hasUserVoted pollId userId in
  if (existingVote : bool) then ret (Some AlreadyVoted)
  else
    let* r := select_poll pollId in
    match data r with
    | None => ret (Some PollNotFound)
    | Some poll =>
        let* now := new_Date in
        if expired poll now then ret (Some PollExpired)
        else if out_of_range optionIndex poll then ret (Some InvalidOption)
        else ret None
    end.

(** The insert of [submitVote]: the store's answer is returned as it is. *)
Definition submitVote_insert (pollId userId : string) (optionIndex : Z)
  : M SubmitResult :=
  let* r := insert_vote pollId userId optionIndex in
  ret (mkSubmit (data r) (StoreError <$> error r)).

(** What follows the checks: return the failure, or go on to the insert. *)
Definition submitVote_finish (failure : option Error)
    (pollId userId : string) (optionIndex : Z) : M SubmitResult :=
  match failure with
  | Some e => ret (rejected e)
  | None => submitVote_insert pollId userId optionIndex
  end.

Definition submitVote (pollId userId : string) (optionIndex : Z)
  : M SubmitResult :=
  let* failure := submitVote_checks pollId userId optionIndex in
  submitVote_finish failure pollId userId optionIndex.

(** Two calls of [submitVote] for one pair, interleaved at their awaits so
    that both have run their checks before either insert reaches the
    store. *)
Definition submitVote_race (pollId userId : string) (first second : Z)
  : M (SubmitResult * SubmitResult) :=
  let* failure1 := submitVote_checks pollId userId first in
  let* failure2 := submitVote_checks pollId userId second in
  let* result1 := submitVote_finish failure1 pollId userId first in
  let* result2 := submitVote_finish failure2 pollId userId second in
  ret (result1, result2).

(** [results[vote.option_index]++] on a JavaScript array: inside the array
    the count goes up by one; past the end the array grows, holes fill the
    gap and the new element is [NaN]; a negative index names a property
    that is not an element, so the elements stay as they are. *)
Definition increment (old : option JsVal) : JsVal :=
  match old with
  | Some (Num n) => Num (n + 1)
  | _ => NaN
  end.

Definition bump (results : list JsVal) (optionIndex : Z) : list JsVal :=
  if (optionIndex <? 0)%Z then results
  else
    let i := Z.to_nat optionIndex in
    if (i <? length results)%nat then <[i := increment (results !! i)]> results
    else results ++ replicate (i - length results) Hole ++ [NaN].

(** What [getPollResults] resolves to: [{ results, error }]. *)
Record PollResults := mkResults {
  results : list JsVal;
  results_error : option Error
}.

Definition getPollResults (pollId : string) : M PollResults :=
  let* rv := select_option_indices pollId in
  match error rv with
  | Some e => ret (mkResults [] (Some (StoreError e)))
  | None =>
      let* rp := select_poll pollId in
      match data rp with
      | None => ret (mkResults [] (Some PollNotFound))
      | Some poll =>
          let zeros := replicate (length (options poll)) (Num 0) in
          ret (mkResults (foldl bump zeros (default [] (data rv))) None)
      end
  end.

(** [onUpdate(results)]: the call is recorded under the subscription's
    handle. *)
Definition onUpdate (handle : nat) (rs : list JsVal) : M unit :=
  λ w, ((), set_updates (updates w ++ [(handle, rs)]) w).

(** The listener that [subscribeToResults] registers on the channel. *)
Definition on_postgres_changes (handle : nat) (pollId : string) : M unit :=
  let* r := getPollResults pollId in
  onUpdate handle (results r).

(** [subscribeToResults]: opens the channel [poll_<id>] filtered on the
    poll and resolves to [{ subscription, error: null }].  Every call is
    taken to open a channel of its own, also for a poll that already has
    one, as the specification has the subscriptions to one poll
    independent.  What a realtime client does with a second channel of the
    same name differs between clients (some hand back the first channel,
    some refuse the listener) and is not modelled; the tables are the same
    either way. *)
Definition subscribeToResults (pollId : string) : M (nat * option Error) :=
  λ w, ((length (channels w), None),
        set_channels (channels w ++ [mkChannel ("poll_" +:+ pollId) pollId true]) w).

(** [subscription.unsubscribe()] *)
Definition unsubscribe (handle : nat) : M unit :=
  λ w, ((),
        set_channels
          (alter (λ c, mkChannel (topic c) (watched_poll c) false) handle (channels w))
          w).

(** The store delivers one queued change event: every joined channel whose
    filter matches the poll runs its listener. *)
Fixpoint run_listeners (handle : nat) (cs : list Channel) (pollId : string)
  : M unit :=
  match cs with
  | [] => ret ()
  | c :: cs' =>
      let* _ :=
        (if joined c && bool_decide (watched_poll c = pollId)
         then on_postgres_changes handle (watched_poll c)
         else ret ()) in
      run_listeners (S handle) cs' pollId
  end.

Definition deliver : M unit :=
  λ w, match pending w with
       | [] => ((), w)
       | pollId :: rest =>
           run_listeners 0 (channels w) pollId (set_pending rest w)
       end.

(** ** lib/polls.ts *)

(** What [deletePoll] resolves to: [{ success, error }]. *)
Record DeleteResult := mkDelete {
  success : bool;
  delete_error : option Error
}.

Definition deletePoll (id userId : string) : M DeleteResult :=
  let* r := select_poll id in
  match data r with
  | None => ret (mkDelete false (Some NotAuthorized))
  | Some poll =>
      if bool_decide (created_by poll ≠ userId)
      then ret (mkDelete false (Some NotAuthorized))
      else
        let* _ := delete_votes id in
        let* rd := delete_poll_row id in
        ret (mkDelete (negb (truthy (error rd))) (StoreError <$> error rd))
  end.

(** ** app/api/polls/route.ts *)

Module Route.

(** A value that [JSON.parse] produces.  An object is the list of its
    members, each key once; strings are sequences of code units. *)
#[local] Unset Elimination Schemes.
Inductive Json :=
  | JNull
  | JBool (b : bool)
  | JNumber (n : Z)
  | JString (s : string)
  | JArray (items : list Json)
  | JObject (members : list (string * Json)).
#[local] Set Elimination Schemes.

(** [object[key]], [None] for [undefined]. *)
Fixpoint member (key : string) (members : list (string * Json)) : option Json :=
  match members with
  | [] => None
  | (k, v) :: rest => if bool_decide (k = key) then Some v else member key rest
  end.

(** What [await request.json()] does with the body of the request: it
    yields the parsed value, or throws when the text is not JSON. *)
Inductive RequestBody :=
  | NotJson
  | JsonBody (body : Json).

(** The issues of a [ZodError]. *)
Inductive PathPart :=
  | Key (k : string)
  | Index (i : nat).

Inductive IssueCode :=
  | invalid_type
  | too_small.

Record ZodIssue := mkIssue {
  code : IssueCode;
  path : list PathPart
}.

Inductive Parsed (A : Type) :=
  | Valid (value : A)
  | Invalid (issues : list ZodIssue).
Arguments Valid {A} _.
Arguments Invalid {A} _.

Definition issues_of {A} (p : Parsed A) : list ZodIssue :=
  match p with
  | Valid _ => []
  | Invalid issues => issues
  end.

(** [z.infer<typeof pollSchema>] *)
Record OptionData := mkOption { text : string }.
Record PollData := mkPollData {
  question : string;
  options : list OptionData
}.

(** [z.string().min(m)] *)
Definition parse_string_min (m : nat) (at_path : list PathPart)
    (input : option Json) : Parsed string :=
  match input with
  | Some (JString s) =>
      if (m <=? String.length s)%nat then Valid s
      else Invalid [mkIssue too_small at_path]
  | _ => Invalid [mkIssue invalid_type at_path]
  end.

(** [z.object({ text: z.string().min(1) })] *)
Definition parse_option (at_path : list PathPart) (input : option Json)
  : Parsed OptionData :=
  match input with
  | Some (JObject members) =>
      match parse_string_min 1 (at_path ++ [Key "text"]) (member "text" members) with
      | Valid s => Valid (mkOption s)
      | Invalid issues => Invalid issues
      end
  | _ => Invalid [mkIssue invalid_type at_path]
  end.

(** The elements of the array, each parsed at its index: the issues
    found and the elements that are valid. *)
Fixpoint parse_items (at_path : list PathPart) (i : nat) (items : list Json)
  : list ZodIssue * list OptionData :=
  match items with
  | [] => ([], [])
  | item :: rest =>
      let (issues, values) := parse_items at_path (S i) rest in
      match parse_option (at_path ++ [Index i]) (Some item) with
      | Valid v => (issues, v :: values)
      | Invalid found => (found ++ issues, values)
      end
  end.

(** [z.array(...).min(2)] *)
Definition parse_options (at_path : list PathPart) (input : option Json)
  : Parsed (list OptionData) :=
  match input with
  | Some (JArray items) =>
      let short :=
        if (length items <? 2)%nat then [mkIssue too_small at_path] else [] in
      let (issues, values) := parse_items at_path 0 items in
      match short ++ issues with
      | [] => Valid values
      | all => Invalid all
      end
  | _ => Invalid [mkIssue invalid_type at_path]
  end.

(** [pollSchema.parse(body)]: the data with the keys of the schema, or
    the issues of the [ZodError] it throws. *)
Definition pollSchema_parse (body : Json) : Parsed PollData :=
  match body with
  | JObject members =>
      let q := parse_string_min 5 [Key "question"] (member "question" members) in
      let o := parse_options [Key "options"] (member "options" members) in
      match q, o with
      | Valid q', Valid o' => Valid (mkPollData q' o')
      | _, _ => Invalid (issues_of q ++ issues_of o)
      end
  | _ => Invalid [mkIssue invalid_type []]
  end.

(** The body of a [NextResponse.json(...)]. *)
Inductive ResponseBody :=
  | Created (message : string) (data : PollData)
  | InvalidRequest (message : string) (errors : list ZodIssue)
  | ServerError (message : string).

Record HttpResponse := mkHttp {
  status : nat;
  json : ResponseBody
}.

(** The handler: the [try] block, then the two branches of [catch]. *)
Definition POST (request : RequestBody) : M HttpResponse :=
  match request with
  | JsonBody body =>
      match pollSchema_parse body with
      | Valid validatedData =>
          ret (mkHttp 201 (Created "Poll created successfully" validatedData))
      | Invalid errors =>
          ret (mkHttp 400 (InvalidRequest "Invalid request data" errors))
      end
  | NotJson => ret (mkHttp 500 (ServerError "Internal server error"))
  end.

(** The schema in the words of the specification: an option with
    non-empty text, and a body with a question of at least 5 characters
    and an array of at least 2 such options. *)
Definition option_with_text (item : Json) (t : string) : Prop :=
  ∃ members, item = JObject members ∧
             member "text" members = Some (JString t) ∧ 1 ≤ String.length t.

Definition meets_schema (body : Json) (q : string) (texts : list string) : Prop :=
  ∃ members items,
    body = JObject members ∧
    member "question" members = Some (JString q) ∧ 5 ≤ String.length q ∧
    member "options" members = Some (JArray items) ∧ 2 ≤ length items ∧
    Forall2 option_with_text items texts.

Definition valid_body : Json :=
  JObject [("question", JString "Tea or coffee?");
           ("options", JArray [JObject [("text", JString "Tea")];
                               JObject [("text", JString "Coffee")]]);
           ("draft", JBool true)].

Definition short_body : Json :=
  JObject [("question", JString "Tea?");
           ("options", JArray [JObject [("text", JString "Tea")]])].
End Route.

(** * Notions used in the statements *)

(** ** The constraints of the schema *)

Definition vote_key (v : Vote) : string * string := (vote_poll_id v, user_id v).

(** Primary key of [polls], unique [(poll_id, user_id)] of [votes]. *)
Definition store_ok (w : World) : Prop :=
  NoDup (poll_id <$> polls w) ∧ NoDup (vote_key <$> votes w).

(** A vote record exists for the pair. *)
Definition voted (pollId userId : string) (w : World) : Prop :=
  ∃ v, v ∈ votes w ∧ vote_poll_id v = pollId ∧ user_id v = userId.

(** The poll's expiration timestamp is strictly before [now]. *)
Definition past_expiry (poll : Poll) (now : Z) : Prop :=
  ∃ t, expires_at poll = Some t ∧ (t < now)%Z.


(** ** The tally as the specification describes it *)

(** The number of entries of [indices] equal to the position [i]. *)
Definition count_index (indices : list Z) (i : nat) : Z :=
  Z.of_nat (length (filter (λ x, x = Z.of_nat i) indices)).

(** One count per option position, in option order. *)
Definition tally_of (n : nat) (indices : list Z) : list Z :=
  count_index indices <$> seq 0 n.

Definition total (counts : list Z) : Z := foldr Z.add 0%Z counts.

(** ** Worlds used in the examples *)

Module Scenario.
Definition red_blue : Poll :=
  mkPoll "P" 0 "Which colour?" ["Red"; "Blue"] "owner" None true.

Definition closed_poll : Poll :=
  mkPoll "Q" 0 "Which season?" ["Spring"; "Autumn"] "owner" (Some 50%Z) true.

Definition vote_A : Vote := mkVote 0 100 "P" "A" 0.
Definition vote_B : Vote := mkVote 1 100 "P" "B" 1.

Definition channel_P : Channel := mkChannel "poll_P" "P" true.

(** Two polls, no vote yet, the clock at 100, the store answering every
    request. *)
Definition fresh : World :=
  mkWorld [red_blue; closed_poll] [] 0 100 [] [] [] [].

(** Voter A has voted for Red. *)
Definition after_A : World :=
  mkWorld [red_blue; closed_poll] [vote_A] 1 100 [] [] ["P"] [].

(** The same, with the next round trip to the store lost. *)
Definition after_A_offline : World :=
  mkWorld [red_blue; closed_poll] [vote_A] 1 100 [true] [] ["P"] [].

(** The same, with the second round trip lost. *)
Definition after_A_flaky : World :=
  mkWorld [red_blue; closed_poll] [vote_A] 1 100 [false; true] [] ["P"] [].

(** A subscription to P is open. *)
Definition subscribed : World :=
  mkWorld [red_blue; closed_poll] [] 0 100 [] [channel_P] [] [].

(** A has voted and the change event has been delivered: the callback of
    the subscription has been called with the tally. *)
Definition live : World :=
  mkWorld [red_blue; closed_poll] [vote_A] 1 100 [] [channel_P] []
          [(0, [Num 1; Num 0])].

(** The owner has deleted P; the deletion of A's vote is a change event
    that is still to be delivered. *)
Definition deleted : World :=
  mkWorld [closed_poll] [] 1 100 [] [channel_P] ["P"] [(0, [Num 1; Num 0])].

(** That event has been delivered. *)
Definition after_deletion_event : World :=
  mkWorld [closed_poll] [] 1 100 [] [channel_P] []
          [(0, [Num 1; Num 0]); (0, [])].
End Scenario.

From stdpp Require sorting.

(** * Further notions used in the statements *)


(** The handles of the joined channels that watch the poll, in the order
    the store runs their listeners, for channels numbered from [handle]. *)
Fixpoint listeners_from (handle : nat) (cs : list Channel) (pollId : string)
  : list nat :=
  match cs with
  | [] => []
  | c :: cs' =>
      (if joined c && bool_decide (watched_poll c = pollId) then [handle] else [])
      ++ listeners_from (S handle) cs' pollId
  end.


Module More.
(** A vote on P whose index is past the two options, beside A's vote. *)
Definition stray_vote : Vote := mkVote 1 100 "P" "B" 3.
Definition with_stray_vote : World :=
  mkWorld [Scenario.red_blue; Scenario.closed_poll]
          [Scenario.vote_A; stray_vote] 2 100 [] [] [] [].

(** A vote on P with a negative index, beside A's vote. *)
Definition negative_vote : Vote := mkVote 1 100 "P" "B" (-1).
Definition with_negative_vote : World :=
  mkWorld [Scenario.red_blue; Scenario.closed_poll]
          [Scenario.vote_A; negative_vote] 2 100 [] [] [] [].

(** The owner deletes P: the lookup and the deletion of the votes are
    answered, the deletion of the poll is lost. *)
Definition live_then_lost : World :=
  mkWorld [Scenario.red_blue; Scenario.closed_poll] [Scenario.vote_A] 1 100
          [false; false; true] [Scenario.channel_P] [] [(0, [Num 1; Num 0])].
End More.

(** * More of lib/polls.ts: createPoll and getPollById *)

Module Polls.

(** A function that either throws or resolves. *)
Inductive Outcome (A : Type) :=
  | Throws (e : Error)
  | Resolves (a : A).
Arguments Throws {A} _.
Arguments Resolves {A} _.

(** The white space and line terminators of JavaScript among the code
    units below 256: tab, line feed, vertical tab, form feed, carriage
    return, space and no-break space. *)
Definition is_white_space (c : Ascii.ascii) : bool :=
  let code := Ascii.nat_of_ascii c in
  (9 <=? code)%nat && (code <=? 13)%nat || (code =? 32)%nat || (code =? 160)%nat.

(** [String.prototype.trim], in its two halves. *)
Fixpoint trimStart (s : string) : string :=
  match s with
  | EmptyString => EmptyString
  | String c rest => if is_white_space c then trimStart rest else s
  end.

Fixpoint trimEnd (s : string) : string :=
  match s with
  | EmptyString => EmptyString
  | String c rest =>
      match trimEnd rest with
      | EmptyString => if is_white_space c then EmptyString else String c EmptyString
      | kept => String c kept
      end
  end.

Definition trim (s : string) : string := trimEnd (trimStart s).

(** [!s] for a string: the empty string is the one falsy string. *)
Definition falsy (s : string) : bool :=
  match s with
  | EmptyString => true
  | String _ _ => false
  end.

(** [from('polls').insert({...}).select().single()].  The identifier the
    store draws for the new row ([gen_random_uuid()]) is the argument
    [uuid]; the primary key turns a second row with the same identifier
    away.  The store stamps the row with its clock. *)
Definition insert_poll (uuid : string) (new_question : string)
    (new_options : list string) (creator : string)
    (expiry : option Z) (public : bool) : M (Response Poll) :=
  let* lost := round_trip in
  if (lost : bool) then ret (failed RequestFailed)
  else λ w,
    match polls_with uuid (polls w) with
    | _ :: _ => (failed UniqueViolation, w)
    | [] =>
        let row := mkPoll uuid (clock w) new_question new_options creator
                          expiry public in
        (ok row, set_polls (polls w ++ [row]) w)
    end.

(** What [createPoll] and [getPollById] resolve to: [{ poll, error }]. *)
Record PollResult := mkPollResult {
  poll : option Poll;
  poll_error : option Error
}.

(** [createPoll]: the two checks throw; otherwise the answer of the store
    is returned as it is.  [is_public] defaults to [true] when it is left
    out. *)
Definition createPoll (uuid : string) (new_question : string)
    (new_options : list string) (creator : string)
    (expiry : option Z) (public : option bool) : M (Outcome PollResult) :=
  if falsy (trim new_question)
  then ret (Throws (JsError "Question cannot be empty"))
  else if (length new_options <? 2)%nat
  then ret (Throws (JsError "Poll must have at least 2 options"))
  else
    let* r := insert_poll uuid new_question new_options creator expiry
                          (default true public) in
    ret (Resolves (mkPollResult (data r) (StoreError <$> error r))).

(** [getPollById] *)
Definition getPollById (id : string) : M PollResult :=
  let* r := select_poll id in
  ret (mkPollResult (data r) (StoreError <$> error r)).

(** Every character of the string is white space. *)
Definition blank (s : string) : Prop :=
  Forall (λ c, is_white_space c = true) (String.list_ascii_of_string s).

End Polls.

(** * More of lib/polls.ts: getPolls *)

Module Listing.

(** [ORDER BY created_at DESC]: a row may stand before another when it is
    not older. *)
Definition newer_first (p q : Poll) : Prop :=
  (poll_created_at q ≤ poll_created_at p)%Z.

Global Instance newer_first_dec : RelDecision newer_first.
Proof. intros p q. unfold newer_first. apply _. Defined.

(** The filters [getPolls] adds to the query: [created_by] when a user
    identifier is given that is not the empty string, [is_public] when
    [public_only] is set. *)
Definition selected (user_id : option string) (public_only : bool) (p : Poll)
  : bool :=
  match user_id with
  | Some u => Polls.falsy u || bool_decide (created_by p = u)
  | None => true
  end
  && (negb public_only || is_public p).

(** [from('polls').select('*').order('created_at', { ascending: false })
    .range(from, to)] with the filters: the rows that pass the filters,
    newest first (rows of equal age in the order of a stable sort), cut to
    the positions [from] to [to].  What the store answers when the range
    starts past the last row, or is not a range at all, differs between
    versions of the store; it is the argument [unsatisfiable]. *)
Definition select_polls (unsatisfiable : Response (list Poll))
    (user_id : option string) (public_only : bool) (from to : Z)
  : M (Response (list Poll)) :=
  let* lost := round_trip in
  if (lost : bool) then ret (failed RequestFailed)
  else λ w,
    let rows :=
      sorting.merge_sort newer_first
        (filter (λ p, selected user_id public_only p = true) (polls w)) in
    if (0 <=? from)%Z && (from <=? to)%Z
       && ((from =? 0)%Z || (from <? Z.of_nat (length rows))%Z)
    then (ok (take (Z.to_nat (to - from + 1)) (drop (Z.to_nat from) rows)), w)
    else (unsatisfiable, w).

(** What [getPolls] resolves to: [{ polls, error }]. *)
Record PollsResult := mkPollsResult {
  listed : option (list Poll);
  listing_error : option Error
}.

(** [getPolls]: [public_only], [page] and [limit] default to [false], [1]
    and [10] when they are left out. *)
Definition getPolls (unsatisfiable : Response (list Poll))
    (user_id : option string) (public_only : option bool)
    (page limit : option Z) : M PollsResult :=
  let page' := default 1%Z page in
  let limit' := default 10%Z limit in
  let* r := select_polls unsatisfiable user_id (default false public_only)
                         ((page' - 1) * limit') (page' * limit' - 1) in
  ret (mkPollsResult (data r) (StoreError <$> error r)).

End Listing.

(** * lib/auth.ts: signUp *)

Module Auth.

(** What the identity provider answers to [auth.signUp]:
    [{ data: { user }, error }], the user by its identifier and the error
    by its message. *)
Record AuthResponse := mkAuth {
  data_user : option string;
  auth_error : option string
}.

(** What [signUp] resolves to: [{ user, error }]. *)
Record SignUpResult := mkSignUp {
  user : option string;
  signup_error : option string
}.

(** [s.includes(c)] for a one-character [c]. *)
Fixpoint includes (c : Ascii.ascii) (s : string) : bool :=
  match s with
  | EmptyString => false
  | String c' rest => bool_decide (c' = c) || includes c rest
  end.

Definition at_sign : Ascii.ascii := Ascii.ascii_of_nat 64.

(** [signUp]: the two checks throw; otherwise the provider is asked and
    its answer handed on.  The provider is the argument [provider]. *)
Definition signUp (provider : string → string → AuthResponse)
    (email password : string) : Polls.Outcome SignUpResult :=
  if negb (includes at_sign email)
  then Polls.Throws (JsError "Invalid email format")
  else if (String.length password <? 8)%nat
  then Polls.Throws (JsError "Password must be at least 8 characters long")
  else
    let answer := provider email password in
    Polls.Resolves (mkSignUp (data_user answer) (auth_error answer)).

(** The address has an at sign somewhere. *)
Definition has_at_sign (email : string) : Prop :=
  ∃ before after, email = before +:+ String at_sign after.

End Auth.

(** * The poll form and the dashboard *)

Module Form.

(** [pollFormSchema] on the values of the form, which are typed: a question
    of at least 5 characters and at least 2 options, each with a text of
    at least 1 character. *)
Definition pollFormSchema_accepts (values : Route.PollData) : bool :=
  (5 <=? String.length (Route.question values))%nat
  && (2 <=? length (Route.options values))%nat
  && forallb (λ o, (1 <=? String.length (Route.text o))%nat) (Route.options values).

(** What the endpoint reads with [request.json()] when [onSubmit] has sent
    [JSON.stringify(data)]. *)
Definition sent_body (values : Route.PollData) : Route.Json :=
  Route.JObject
    [("question", Route.JString (Route.question values));
     ("options",
      Route.JArray
        ((λ o, Route.JObject [("text", Route.JString (Route.text o))])
           <$> Route.options values))].

End Form.

Module Dashboard.

(** [PollWithResults]: a poll as [getPolls] returned it, with the results
    fetched for it, if any. *)
Record PollWithResults := mkShown {
  row : Poll;
  shown_results : option (list JsVal)
}.

(** The state of [UserDashboard] that [handleDeletePoll] reads and sets:
    [polls], [error] and [userId]. *)
Record State := mkState {
  shown : list PollWithResults;
  failure : option string;
  user : option string
}.

(** [handleDeletePoll]: nothing without a user; an error of [deletePoll]
    is thrown to the [catch], which sets the message; a success drops the
    poll from the list. *)
Definition handleDeletePoll (pollId : string) (st : State) : M State :=
  match user st with
  | None => ret st
  | Some userId =>
      if Polls.falsy userId then ret st
      else
        let* r := deletePoll pollId userId in
        match delete_error r with
        | Some _ => ret (mkState (shown st) (Some "Failed to delete poll") (user st))
        | None =>
            if success r
            then ret (mkState (filter (λ p, poll_id (row p) ≠ pollId) (shown st))
                              (failure st) (user st))
            else ret st
        end
  end.

End Dashboard.

(** * Sequences of calls *)

Module Service.

(** One call of the service, or one delivery of a change event by the
    store. *)
Inductive Call :=
  | SubmitVote (pollId userId : string) (optionIndex : Z)
  | HasUserVoted (pollId userId : string)
  | GetPollResults (pollId : string)
  | SubscribeToResults (pollId : string)
  | Unsubscribe (handle : nat)
  | Deliver
  | CreatePoll (uuid new_question : string) (new_options : list string)
               (creator : string) (expiry : option Z) (public : option bool)
  | GetPollById (id : string)
  | DeletePoll (id userId : string).

(** The world a call leaves behind. *)
Definition run (c : Call) (w : World) : World :=
  match c with
  | SubmitVote pollId userId optionIndex =>
      (submitVote pollId userId optionIndex w).2
  | HasUserVoted pollId userId => (hasUserVoted pollId userId w).2
  | GetPollResults pollId => (getPollResults pollId w).2
  | SubscribeToResults pollId => (subscribeToResults pollId w).2
  | Unsubscribe handle => (unsubscribe handle w).2
  | Deliver => (deliver w).2
  | CreatePoll uuid new_question new_options creator expiry public =>
      (Polls.createPoll uuid new_question new_options creator expiry public w).2
  | GetPollById id => (Polls.getPollById id w).2
  | DeletePoll id userId => (deletePoll id userId w).2
  end.

Definition after (calls : list Call) (w : World) : World :=
  foldl (λ w c, run c w) w calls.

End Service.

(** * Properties *)

Section keyed_rows.
Context {A K : Type} `{EqDecision K} (key : A → K).

Lemma filter_key_absent (l : list A) (k : K) :
  (∀ x, x ∈ l → key x ≠ k) → filter (λ y, key y = k) l = [].
Proof.
  induction l as [|a l IH]; intros Hno; [done|].
  rewrite filter_cons_False.
  - apply IH. intros x Hx. apply Hno. by right.
  - apply Hno. by left.
Qed.

Lemma filter_key_unique (l : list A) (x : A) :
  NoDup (key <$> l) → x ∈ l → filter (λ y, key y = key x) l = [x].
Proof.
  induction l as [|a l IH]; intros Hnd Hin.
  - by apply elem_of_nil in Hin.
  - rewrite fmap_cons in Hnd. apply NoDup_cons in Hnd as [Hfresh Hnd].
    apply elem_of_cons in Hin as [->|Hin].
    + rewrite filter_cons_True by done. f_equal.
      apply filter_key_absent. intros y Hy Heq. apply Hfresh.
      rewrite <- Heq. by apply list_elem_of_fmap_2.
    + rewrite filter_cons_False; [by apply IH|].
      intros Heq. apply Hfresh. rewrite Heq. by apply list_elem_of_fmap_2.
Qed.
End keyed_rows.

Lemma votes_by_key (pollId userId : string) (vs : list Vote) :
  votes_by pollId userId vs = filter (λ v, vote_key v = (pollId, userId)) vs.
Proof.
  unfold votes_by. apply list_filter_iff. intros v. unfold vote_key.
  split; [by intros [-> ->]|]. intros [= -> ->]. done.
Qed.

Lemma votes_by_none (pollId userId : string) (w : World) :
  ¬ voted pollId userId w ↔ votes_by pollId userId (votes w) = [].
Proof.
  split.
  - intros Hno. rewrite votes_by_key. apply filter_key_absent.
    intros v Hv [= Hp Hu]. apply Hno. by exists v.
  - intros Hnil (v & Hv & Hp & Hu).
    assert (v ∈ votes_by pollId userId (votes w)) as Hin
      by (by apply list_elem_of_filter).
    rewrite Hnil in Hin. by apply elem_of_nil in Hin.
Qed.

Lemma votes_by_one (pollId userId : string) (w : World) :
  store_ok w → voted pollId userId w → ∃ v, votes_by pollId userId (votes w) = [v].
Proof.
  intros [_ Hnd] (v & Hv & Hp & Hu). exists v.
  rewrite votes_by_key.
  replace (pollId, userId) with (vote_key v) by (unfold vote_key; congruence).
  by apply (filter_key_unique vote_key).
Qed.

Lemma polls_with_none (id : string) (w : World) :
  (∀ p, p ∈ polls w → poll_id p ≠ id) ↔ polls_with id (polls w) = [].
Proof.
  split.
  - intros Hno. by apply (filter_key_absent poll_id).
  - intros Hnil p Hp Hid.
    assert (p ∈ polls_with id (polls w)) as Hin
      by (by apply list_elem_of_filter).
    rewrite Hnil in Hin. by apply elem_of_nil in Hin.
Qed.

Lemma polls_with_one (poll : Poll) (w : World) :
  store_ok w → poll ∈ polls w → polls_with (poll_id poll) (polls w) = [poll].
Proof. intros [Hnd _] Hin. by apply (filter_key_unique poll_id). Qed.

Lemma polls_with_elem (id : string) (ps : list Poll) (poll : Poll) :
  poll ∈ polls_with id ps → poll ∈ ps ∧ poll_id poll = id.
Proof. unfold polls_with. rewrite list_elem_of_filter. tauto. Qed.

Lemma expired_past_expiry (poll : Poll) (now : Z) :
  expired poll now = true ↔ past_expiry poll now.
Proof.
  unfold expired, past_expiry. destruct (expires_at poll) as [t|].
  - rewrite Z.ltb_lt. split; [by exists t|]. by intros (? & [= <-] & ?).
  - split; [done|]. by intros (? & ? & ?).
Qed.

Lemma out_of_range_outside (optionIndex : Z) (poll : Poll) :
  out_of_range optionIndex poll = true ↔
  (optionIndex < 0 ∨ Z.of_nat (length (options poll)) ≤ optionIndex)%Z.
Proof. unfold out_of_range. rewrite orb_true_iff, Z.ltb_lt, Z.leb_le. done. Qed.

(** ** Requests the store answers, requests that are lost *)

Lemma round_trip_answered (w : World) :
  outages w = [] → round_trip w = (false, w).
Proof. unfold round_trip. by intros ->. Qed.

Lemma round_trip_lost (w : World) (rest : list bool) :
  outages w = true :: rest → round_trip w = (true, set_outages rest w).
Proof. unfold round_trip. by intros ->. Qed.

Lemma select_vote_id_answered (pollId userId : string) (w : World) :
  outages w = [] →
  select_vote_id pollId userId w
  = (single (vote_id <$> votes_by pollId userId (votes w)), w).
Proof. intros H. unfold select_vote_id, bind. by rewrite round_trip_answered. Qed.

Lemma select_poll_answered (id : string) (w : World) :
  outages w = [] → select_poll id w = (single (polls_with id (polls w)), w).
Proof. intros H. unfold select_poll, bind. by rewrite round_trip_answered. Qed.

Lemma select_option_indices_answered (pollId : string) (w : World) :
  outages w = [] →
  select_option_indices pollId w
  = (ok (option_index <$> votes_of pollId (votes w)), w).
Proof.
  intros H. unfold select_option_indices, bind. by rewrite round_trip_answered.
Qed.

Lemma hasUserVoted_answered (pollId userId : string) (w : World) :
  outages w = [] →
  hasUserVoted pollId userId w
  = (match votes_by pollId userId (votes w) with [_] => true | _ => false end, w).
Proof.
  intros H. unfold hasUserVoted, bind. rewrite select_vote_id_answered by done.
  by destruct (votes_by pollId userId (votes w)) as [|? [|? ?]].
Qed.

Lemma hasUserVoted_lost (pollId userId : string) (w : World) (rest : list bool) :
  outages w = true :: rest →
  hasUserVoted pollId userId w = (false, set_outages rest w).
Proof.
  intros H. unfold hasUserVoted, select_vote_id, bind.
  by rewrite (round_trip_lost _ rest).
Qed.

(** Whatever the store does, [hasUserVoted] leaves the tables alone and
    says [true] only when the lookup found exactly one row. *)
Lemma hasUserVoted_inv (pollId userId : string) (w : World) :
  ∀ b w', hasUserVoted pollId userId w = (b, w') →
    polls w' = polls w ∧ votes w' = votes w ∧
    (b = true → ∃ v, votes_by pollId userId (votes w) = [v]).
Proof.
  intros b w'. unfold hasUserVoted, select_vote_id, bind, round_trip, ret.
  destruct (outages w) as [|[] rest]; simpl;
    destruct (votes_by pollId userId (votes w)) as [|v [|v' l]]; simpl;
    intros [= <- <-]; repeat split; try done; by exists v.
Qed.

Lemma insert_vote_answered (pollId userId : string) (optionIndex : Z) (w : World) :
  outages w = [] →
  insert_vote pollId userId optionIndex w
  = match votes_by pollId userId (votes w), polls_with pollId (polls w) with
    | _ :: _, _ => (failed UniqueViolation, w)
    | [], [] => (failed ForeignKeyViolation, w)
    | [], _ :: _ =>
        let row := mkVote (next_vote_id w) (clock w) pollId userId optionIndex in
        (ok row,
         set_pending (pending w ++ [pollId])
           (set_next_vote_id (S (next_vote_id w))
              (set_votes (votes w ++ [row]) w)))
    end.
Proof. intros H. unfold insert_vote, bind. by rewrite round_trip_answered. Qed.

(** A row comes back from the insert only when it is now the one row of
    the pair; otherwise the table is as it was. *)
Lemma insert_vote_inv (pollId userId : string) (optionIndex : Z) (w : World) :
  ∀ r w', insert_vote pollId userId optionIndex w = (r, w') →
    polls w' = polls w ∧
    match data r with
    | Some row =>
        error r = None ∧ votes_by pollId userId (votes w) = [] ∧
        votes w' = votes w ++ [row] ∧
        vote_poll_id row = pollId ∧ user_id row = userId ∧
        option_index row = optionIndex
    | None => is_Some (error r) ∧ votes w' = votes w
    end.
Proof.
  intros r w'. unfold insert_vote, bind, round_trip, ret.
  destruct (outages w) as [|[] rest]; simpl;
    destruct (votes_by pollId userId (votes w)) as [|v l] eqn:Hby;
    destruct (polls_with pollId (polls w)) as [|p ps];
    intros [= <- <-]; simpl; rewrite ?Hby; by eauto 10.
Qed.

Lemma votes_by_snoc (pollId userId : string) (vs : list Vote) (row : Vote) :
  vote_poll_id row = pollId → user_id row = userId →
  votes_by pollId userId (vs ++ [row]) = votes_by pollId userId vs ++ [row].
Proof.
  intros Hp Hu. unfold votes_by. rewrite filter_app. f_equal.
  by rewrite filter_cons_True.
Qed.

Lemma submitVote_checks_answered (pollId userId : string) (optionIndex : Z)
    (w : World) :
  outages w = [] →
  submitVote_checks pollId userId optionIndex w
  = (match votes_by pollId userId (votes w) with
     | [_] => Some AlreadyVoted
     | _ =>
         match polls_with pollId (polls w) with
         | [poll] =>
             if expired poll (clock w) then Some PollExpired
             else if out_of_range optionIndex poll then Some InvalidOption
             else None
         | _ => Some PollNotFound
         end
     end, w).
Proof.
  intros H. unfold submitVote_checks, bind.
  rewrite hasUserVoted_answered by done.
  destruct (votes_by pollId userId (votes w)) as [|v [|v' l]]; try done;
    rewrite select_poll_answered by done;
    destruct (polls_with pollId (polls w)) as [|poll [|poll' ps]]; try done;
    simpl; destruct (expired poll (clock w)); try done;
    by destruct (out_of_range optionIndex poll).
Qed.

(** The checks never write to the tables. *)
Lemma submitVote_checks_inv (pollId userId : string) (optionIndex : Z) (w : World) :
  ∀ f w', submitVote_checks pollId userId optionIndex w = (f, w') →
    polls w' = polls w ∧ votes w' = votes w.
Proof.
  intros f w'. unfold submitVote_checks, bind.
  destruct (hasUserVoted pollId userId w) as [b w1] eqn:Hv.
  apply hasUserVoted_inv in Hv as (Hp1 & Hv1 & _).
  destruct b; [by intros [= <- <-]|].
  unfold select_poll, bind, round_trip, ret, new_Date.
  destruct (outages w1) as [|[] rest]; simpl;
    try (destruct (polls_with pollId (polls w1)) as [|poll [|poll' ps]]; simpl;
         try destruct (expired poll (clock w1));
         try destruct (out_of_range optionIndex poll));
    by intros [= <- <-].
Qed.

(** A vote comes back from [submitVote] only when it is now the one row of
    the pair. *)
Lemma submitVote_inv (pollId userId : string) (optionIndex : Z) (w : World) :
  ∀ r w', submitVote pollId userId optionIndex w = (r, w') →
    ∀ row, vote r = Some row →
      submit_error r = None ∧
      votes_by pollId userId (votes w') = [row] ∧
      ¬ voted pollId userId w ∧ votes w' = votes w ++ [row] ∧
      vote_key row = (pollId, userId) ∧ polls w' = polls w.
Proof.
  intros r w'. unfold submitVote, bind.
  destruct (submitVote_checks pollId userId optionIndex w) as [f wc] eqn:Hc.
  apply submitVote_checks_inv in Hc as [Hpc Hvc].
  destruct f as [e|]; simpl; [by intros [= <- <-]|].
  unfold submitVote_insert, bind, ret.
  destruct (insert_vote pollId userId optionIndex wc) as [ri wi] eqn:Hi.
  apply insert_vote_inv in Hi as [Hpi Hi].
  intros [= <- <-] row Hrow. simpl in Hrow. rewrite Hrow in Hi.
  destruct Hi as (He & Hnone & Hvs & Hp & Hu & _). simpl. rewrite He.
  split; [done|]. rewrite Hvs, votes_by_snoc, Hnone by done.
  split; [done|]. split; [|split_and!].
  - apply votes_by_none. by rewrite <- Hvc.
  - by rewrite Hvc.
  - unfold vote_key. by rewrite Hp, Hu.
  - congruence.
Qed.

(** ** hasUserVoted *)

(** C6. [hasUserVoted] never fails: it always resolves to a boolean and
    leaves the tables alone.  It is [false] when no vote record exists for
    the pair (whether or not the poll or the voter exist), [false] whenever
    the lookup comes back with an error, and, when the store answers,
    [true] exactly when a record exists.  It is [true] immediately after a successful
    [submitVote] of that voter, and depends on no other voter's rows. *)
Theorem hasUserVoted_spec (pollId userId : string) (w : World) :
  (∃ b w', hasUserVoted pollId userId w = (b, w') ∧
           polls w' = polls w ∧ votes w' = votes w) ∧
  (¬ voted pollId userId w → (hasUserVoted pollId userId w).1 = false) ∧
  (∀ r w', select_vote_id pollId userId w = (r, w') → is_Some (error r) →
     (hasUserVoted pollId userId w).1 = false) ∧
  (store_ok w → outages w = [] →
     ((hasUserVoted pollId userId w).1 = true ↔ voted pollId userId w)) ∧
  (∀ optionIndex r w1,
     submitVote pollId userId optionIndex w = (r, w1) → is_Some (vote r) →
     outages w1 = [] →
     (hasUserVoted pollId userId w).1 = false ∧
     (hasUserVoted pollId userId w1).1 = true) ∧
  (∀ w2, outages w2 = outages w →
     votes_by pollId userId (votes w2) = votes_by pollId userId (votes w) →
     (hasUserVoted pollId userId w2).1 = (hasUserVoted pollId userId w).1).
Proof.
  assert (Hnone : ¬ voted pollId userId w → (hasUserVoted pollId userId w).1 = false).
  { intros Hno. destruct (hasUserVoted pollId userId w) as [b w'] eqn:Hv.
    apply hasUserVoted_inv in Hv as (_ & _ & Hb). simpl.
    destruct b; [|done]. destruct Hb as [v Hb]; [done|].
    apply votes_by_none in Hno. congruence. }
  split_and!.
  - destruct (hasUserVoted pollId userId w) as [b w'] eqn:Hv.
    exists b, w'. apply hasUserVoted_inv in Hv as (? & ? & _). done.
  - done.
  - intros r w' Hsel [e He]. unfold hasUserVoted, bind.
    by rewrite Hsel, He.
  - intros Hok Hans. split.
    + intros Htrue. destruct (hasUserVoted pollId userId w) as [b w'] eqn:Hv.
      apply hasUserVoted_inv in Hv as (_ & _ & Hb). simpl in Htrue.
      destruct (Hb Htrue) as [v Hby]. exists v.
      assert (v ∈ votes_by pollId userId (votes w)) as Hin
        by (rewrite Hby; by left).
      apply list_elem_of_filter in Hin. tauto.
    + intros Hvoted. rewrite hasUserVoted_answered by done.
      destruct (votes_by_one pollId userId w) as [v ->]; done.
  - intros optionIndex r w1 Hsub [row Hrow] Hans.
    destruct (submitVote_inv _ _ _ _ _ _ Hsub row Hrow) as (_ & Hby & Hno & _).
    split; [by apply Hnone|].
    rewrite hasUserVoted_answered by done. by rewrite Hby.
  - intros w2 Ho Hby. unfold hasUserVoted, select_vote_id, bind, round_trip, ret.
    rewrite Ho. destruct (outages w) as [|[] rest]; simpl; try done;
      rewrite Hby;
      by destruct (votes_by pollId userId (votes w)) as [|? [|? ?]].
Qed.

(** ** submitVote *)

Lemma store_ok_fresh : store_ok Scenario.fresh.
Proof. split; compute_done. Qed.

Lemma store_ok_after_A : store_ok Scenario.after_A.
Proof. split; compute_done. Qed.

(** The scenario of the specification: A votes for Red, the tally is
    [1, 0]; A's second submission is turned away and the tally stays; B
    votes for Blue and the tally is [1, 1]. *)
Example scenario_red_blue :
  submitVote "P" "A" 0 Scenario.fresh
    = (mkSubmit (Some Scenario.vote_A) None, Scenario.after_A) ∧
  (getPollResults "P" Scenario.after_A).1 = mkResults [Num 1; Num 0] None ∧
  submitVote "P" "A" 1 Scenario.after_A
    = (rejected AlreadyVoted, Scenario.after_A) ∧
  (submitVote "P" "B" 1 Scenario.after_A).1
    = mkSubmit (Some Scenario.vote_B) None ∧
  (getPollResults "P" (submitVote "P" "B" 1 Scenario.after_A).2).1
    = mkResults [Num 1; Num 1] None.
Proof. by split_and!. Qed.

Lemma submitVote_answered (pollId userId : string) (optionIndex : Z) (w : World) :
  outages w = [] →
  submitVote pollId userId optionIndex w
  = submitVote_finish (submitVote_checks pollId userId optionIndex w).1
      pollId userId optionIndex w.
Proof.
  intros H. unfold submitVote, bind.
  by rewrite submitVote_checks_answered.
Qed.

(** The claim C2 as it is worded, for every call, fails when a request is
    lost.  Voter A has a vote on P; with the lookup of the duplicate check
    lost, [hasUserVoted] says [false], the other checks pass, and the call
    ends with the store's unique-violation error, not with [AlreadyVoted].
    The poll Q expired at 50 and the clock is at 100; with the lookup of
    the poll lost, the call ends with [PollNotFound], not with
    [PollExpired]. *)
Lemma submitVote_checks_in_order_counterexample :
  voted "P" "A" Scenario.after_A_offline ∧
  (submitVote "P" "A" 1 Scenario.after_A_offline).1
    = mkSubmit None (Some (StoreError UniqueViolation)) ∧
  (submitVote "P" "A" 1 Scenario.after_A_offline).1 ≠ rejected AlreadyVoted ∧
  ¬ voted "Q" "A" Scenario.after_A_flaky ∧
  Scenario.closed_poll ∈ polls Scenario.after_A_flaky ∧
  past_expiry Scenario.closed_poll (clock Scenario.after_A_flaky) ∧
  (submitVote "Q" "A" 0 Scenario.after_A_flaky).1 = rejected PollNotFound ∧
  (submitVote "Q" "A" 0 Scenario.after_A_flaky).1 ≠ rejected PollExpired.
Proof.
  split_and!.
  - exists Scenario.vote_A. split; [by left|done].
  - reflexivity.
  - discriminate.
  - apply votes_by_none. reflexivity.
  - right. by left.
  - exists 50%Z. split; reflexivity.
  - reflexivity.
  - discriminate.
Qed.

(** C2, amended.  For every call of [submitVote] whose queries the store
    answers, the checks run in the order
    duplicate, existence, expiration, range, and the first one that fails
    decides the error: an existing vote of the pair gives [AlreadyVoted]
    whatever the poll and the index are; otherwise a missing poll gives
    [PollNotFound]; otherwise an expiration strictly before the clock gives
    [PollExpired], whatever the index is; otherwise an index outside
    [0, n) gives [InvalidOption].  The four errors are pairwise distinct. *)
Theorem submitVote_checks_in_order (pollId userId : string) (optionIndex : Z)
    (w : World) :
  store_ok w → outages w = [] →
  let outcome := (submitVote pollId userId optionIndex w).1 in
  (voted pollId userId w → outcome = rejected AlreadyVoted) ∧
  (¬ voted pollId userId w → (∀ p, p ∈ polls w → poll_id p ≠ pollId) →
     outcome = rejected PollNotFound) ∧
  (∀ poll, ¬ voted pollId userId w → poll ∈ polls w → poll_id poll = pollId →
     past_expiry poll (clock w) → outcome = rejected PollExpired) ∧
  (∀ poll, ¬ voted pollId userId w → poll ∈ polls w → poll_id poll = pollId →
     ¬ past_expiry poll (clock w) →
     (optionIndex < 0 ∨ Z.of_nat (length (options poll)) ≤ optionIndex)%Z →
     outcome = rejected InvalidOption) ∧
  NoDup [AlreadyVoted; PollNotFound; PollExpired; InvalidOption].
Proof.
  intros Hok Hans outcome. subst outcome.
  rewrite submitVote_answered, submitVote_checks_answered by done. simpl.
  split_and!.
  - intros Hv. by destruct (votes_by_one _ _ _ Hok Hv) as [v ->].
  - intros Hno Hnopoll. apply votes_by_none in Hno as ->.
    by apply polls_with_none in Hnopoll as ->.
  - intros poll Hno Hin <- Hexp. apply votes_by_none in Hno as ->.
    rewrite (polls_with_one poll w) by done.
    by apply expired_past_expiry in Hexp as ->.
  - intros poll Hno Hin <- Hexp Hout. apply votes_by_none in Hno as ->.
    rewrite (polls_with_one poll w) by done.
    destruct (expired poll (clock w)) eqn:He;
      [by apply expired_past_expiry in He|].
    by apply out_of_range_outside in Hout as ->.
  - compute_done.
Qed.

Lemma submitVote_checks_in_order_witness :
  (submitVote "Q" "A" 7 Scenario.fresh).1 = rejected PollExpired.
Proof.
  refine (proj1 (proj2 (proj2
    (submitVote_checks_in_order "Q" "A" 7 Scenario.fresh store_ok_fresh eq_refl)))
    Scenario.closed_poll _ _ eq_refl _).
  - apply votes_by_none. reflexivity.
  - right. left.
  - exists 50%Z. split; reflexivity.
Defined.

Lemma hasUserVoted_spec_witness :
  (hasUserVoted "P" "A" Scenario.fresh).1 = false ∧
  (hasUserVoted "P" "A" Scenario.after_A).1 = true ∧
  (hasUserVoted "P" "A" Scenario.after_A_offline).1 = false ∧
  ((hasUserVoted "P" "B" Scenario.after_A).1 = true ↔ voted "P" "B" Scenario.after_A).
Proof.
  pose proof (hasUserVoted_spec "P" "A" Scenario.fresh) as (_ & _ & _ & _ & Hsub & _).
  destruct (Hsub 0%Z (mkSubmit (Some Scenario.vote_A) None) Scenario.after_A
              eq_refl (ex_intro _ _ eq_refl) eq_refl) as [Hbefore Hafter].
  split_and!.
  - exact Hbefore.
  - exact Hafter.
  - pose proof (hasUserVoted_spec "P" "A" Scenario.after_A_offline)
      as (_ & _ & Hlost & _).
    exact (Hlost (failed RequestFailed) _ eq_refl (ex_intro _ _ eq_refl)).
  - pose proof (hasUserVoted_spec "P" "B" Scenario.after_A)
      as (_ & _ & _ & Hiff & _).
    exact (Hiff store_ok_after_A eq_refl).
Defined.

(** The claim C5 as it is worded fails for a voter who has voted: the poll
    exists, has no expiration, the index 7 is outside [0, 2), and the call
    fails with [AlreadyVoted], not with [InvalidOption]. *)
Lemma submitVote_invalid_option_counterexample :
  store_ok Scenario.after_A ∧ outages Scenario.after_A = [] ∧
  Scenario.red_blue ∈ polls Scenario.after_A ∧
  ¬ past_expiry Scenario.red_blue (clock Scenario.after_A) ∧
  (Z.of_nat (length (options Scenario.red_blue)) ≤ 7)%Z ∧
  (submitVote "P" "A" 7 Scenario.after_A).1 = rejected AlreadyVoted ∧
  (submitVote "P" "A" 7 Scenario.after_A).1 ≠ rejected InvalidOption.
Proof.
  split_and!; try done.
  - exact store_ok_after_A.
  - by left.
  - by intros (t & [=] & _).
Qed.

(** C5, amended.  When the store answers and the voter has no vote record
    on the poll, a submission with an index outside [0, n) against an
    existing poll that has not expired fails with [InvalidOption], and the
    tables are left as they were: the voter still has no vote record. *)
Theorem submitVote_invalid_option (pollId userId : string) (optionIndex : Z)
    (w : World) (poll : Poll) :
  store_ok w → outages w = [] → ¬ voted pollId userId w →
  poll ∈ polls w → poll_id poll = pollId → ¬ past_expiry poll (clock w) →
  (optionIndex < 0 ∨ Z.of_nat (length (options poll)) ≤ optionIndex)%Z →
  ∃ w', submitVote pollId userId optionIndex w = (rejected InvalidOption, w') ∧
        votes w' = votes w ∧ polls w' = polls w ∧ ¬ voted pollId userId w'.
Proof.
  intros Hok Hans Hno Hin <- Hexp Hout. exists w.
  rewrite submitVote_answered, submitVote_checks_answered by done. simpl.
  pose proof Hno as Hnil. apply votes_by_none in Hnil as ->.
  rewrite (polls_with_one poll w) by done.
  destruct (expired poll (clock w)) eqn:He;
    [by apply expired_past_expiry in He|].
  by apply out_of_range_outside in Hout as ->.
Qed.

Lemma submitVote_invalid_option_witness :
  ∃ w', submitVote "P" "B" (-1) Scenario.after_A = (rejected InvalidOption, w') ∧
        votes w' = votes Scenario.after_A ∧ polls w' = polls Scenario.after_A ∧
        ¬ voted "P" "B" w'.
Proof.
  apply (submitVote_invalid_option "P" "B" (-1) Scenario.after_A Scenario.red_blue).
  - exact store_ok_after_A.
  - reflexivity.
  - apply votes_by_none. reflexivity.
  - left.
  - reflexivity.
  - intros (t & Ht & _). discriminate Ht.
  - left. reflexivity.
Defined.

(** Out of range or not, a submission that is turned away writes nothing. *)
Lemma submitVote_rejected_writes_nothing (pollId userId : string)
    (optionIndex : Z) (w : World) :
  ∀ r w', submitVote pollId userId optionIndex w = (r, w') →
    vote r = None → votes w' = votes w ∧ polls w' = polls w.
Proof.
  intros r w'. unfold submitVote, bind.
  destruct (submitVote_checks pollId userId optionIndex w) as [f wc] eqn:Hc.
  apply submitVote_checks_inv in Hc as [Hpc Hvc].
  destruct f as [e|]; simpl; [by intros [= <- <-]|].
  unfold submitVote_insert, bind, ret.
  destruct (insert_vote pollId userId optionIndex wc) as [ri wi] eqn:Hi.
  apply insert_vote_inv in Hi as [Hpi Hi].
  intros [= <- <-] Hnone. simpl in Hnone. rewrite Hnone in Hi.
  destruct Hi as [_ Hvi]. split; congruence.
Qed.

(** ** The race of two submissions *)

Lemma submitVote_checks_pass (pollId userId : string) (optionIndex : Z)
    (w : World) :
  store_ok w → outages w = [] →
  (submitVote_checks pollId userId optionIndex w).1 = None →
  votes_by pollId userId (votes w) = [] ∧
  ∃ poll, polls_with pollId (polls w) = [poll] ∧
          expired poll (clock w) = false ∧ out_of_range optionIndex poll = false.
Proof.
  intros Hok Hans. rewrite submitVote_checks_answered by done. simpl.
  destruct (votes_by pollId userId (votes w)) as [|v [|v' l]] eqn:Hby; [|done|].
  - destruct (polls_with pollId (polls w)) as [|poll [|poll' ps]]; try done.
    destruct (expired poll (clock w)) eqn:He; [done|].
    destruct (out_of_range optionIndex poll) eqn:Hr; [done|].
    intros _. split; [done|]. by exists poll.
  - exfalso. destruct (votes_by_one pollId userId w Hok) as [x Hx]; [|congruence].
    exists v. assert (v ∈ votes_by pollId userId (votes w)) as Hin
      by (rewrite Hby; by left).
    apply list_elem_of_filter in Hin. tauto.
Qed.

(** The claim C1 as it is worded fails: two submissions of voter A race on
    poll P, both pass the checks, the first insert succeeds, and the second
    caller receives the store's unique-violation error, which is not the
    [AlreadyVoted] error of the duplicate check. *)
Lemma submitVote_race_counterexample :
  (submitVote_checks "P" "A" 0 Scenario.fresh).1 = None ∧
  (submitVote_checks "P" "A" 1 Scenario.fresh).1 = None ∧
  (submitVote "P" "A" 1 Scenario.after_A).1 = rejected AlreadyVoted ∧
  ((submitVote_race "P" "A" 0 1 Scenario.fresh).1).2
    = rejected (StoreError UniqueViolation) ∧
  ((submitVote_race "P" "A" 0 1 Scenario.fresh).1).2 ≠ rejected AlreadyVoted.
Proof. by split_and!. Qed.

(** C1, amended.  When two submissions for one pair both pass the checks
    before either insert reaches the store, and the store answers, the
    first insert succeeds and the second fails on the unique constraint of
    [(poll_id, user_id)]: exactly one row of the pair is in the table.  The
    loser's error is the store's unique-violation error handed through as
    it is, with no vote; it is not the [AlreadyVoted] error of the
    duplicate check. *)
Theorem submitVote_race_one_winner (pollId userId : string) (first second : Z)
    (w : World) :
  store_ok w → outages w = [] →
  (submitVote_checks pollId userId first w).1 = None →
  (submitVote_checks pollId userId second w).1 = None →
  ∃ row w',
    submitVote_race pollId userId first second w
    = ((mkSubmit (Some row) None, rejected (StoreError UniqueViolation)), w') ∧
    votes w' = votes w ++ [row] ∧
    votes_by pollId userId (votes w') = [row] ∧
    option_index row = first ∧
    StoreError UniqueViolation ≠ AlreadyVoted.
Proof.
  intros Hok Hans H1 H2.
  destruct (submitVote_checks_pass _ _ _ _ Hok Hans H1)
    as (Hnone & poll & Hpoll & _).
  assert (∀ i, (submitVote_checks pollId userId i w).1 = None →
             submitVote_checks pollId userId i w = (None, w)) as Hpass.
  { intros i Hi. rewrite submitVote_checks_answered in Hi |- * by done.
    f_equal. exact Hi. }
  unfold submitVote_race, bind.
  rewrite (Hpass first H1), (Hpass second H2). simpl.
  unfold submitVote_insert, bind, ret.
  rewrite insert_vote_answered by done. rewrite Hnone, Hpoll. simpl.
  rewrite insert_vote_answered by done. simpl.
  rewrite votes_by_snoc, Hnone by done. simpl.
  eexists _, _. split; [reflexivity|]. simpl.
  rewrite votes_by_snoc, Hnone by done. done.
Qed.

Lemma submitVote_race_one_winner_witness :
  ∃ row w',
    submitVote_race "P" "A" 0 1 Scenario.fresh
    = ((mkSubmit (Some row) None, rejected (StoreError UniqueViolation)), w') ∧
    votes w' = votes Scenario.fresh ++ [row] ∧
    votes_by "P" "A" (votes w') = [row] ∧
    option_index row = 0%Z ∧
    StoreError UniqueViolation ≠ AlreadyVoted.
Proof.
  apply (submitVote_race_one_winner "P" "A" 0 1 Scenario.fresh).
  - exact store_ok_fresh.
  - reflexivity.
  - reflexivity.
  - reflexivity.
Defined.

(** ** getPollResults *)

Section tally.
Implicit Types (indices done todo : list Z) (n i j : nat).

Lemma lookup_tally_of n indices j :
  tally_of n indices !! j
  = if decide (j < n) then Some (count_index indices j) else None.
Proof.
  unfold tally_of. rewrite list_lookup_fmap. case_decide.
  - by rewrite lookup_seq_lt.
  - rewrite lookup_seq_ge by lia. done.
Qed.

Lemma length_tally_of n indices : length (tally_of n indices) = n.
Proof. unfold tally_of. by rewrite length_fmap, length_seq. Qed.

Lemma count_index_snoc indices (x : Z) j :
  count_index (indices ++ [x]) j
  = (count_index indices j + if decide (x = Z.of_nat j) then 1 else 0)%Z.
Proof.
  unfold count_index. rewrite filter_app, length_app, filter_singleton; [|done].
  case_decide; simpl; lia.
Qed.

Lemma zeros_tally_of n : replicate n (Num 0) = Num <$> tally_of n [].
Proof.
  apply list_eq. intros j.
  rewrite list_lookup_fmap, lookup_tally_of. case_decide.
  - by rewrite lookup_replicate_2.
  - apply lookup_replicate_None. lia.
Qed.

(** One [results[x]++] with [x] inside the array. *)
Lemma bump_tally_of n done (x : Z) :
  (0 ≤ x < Z.of_nat n)%Z →
  bump (Num <$> tally_of n done) x = Num <$> tally_of n (done ++ [x]).
Proof.
  intros Hx. unfold bump.
  destruct (Z.ltb_spec x 0) as [|_]; [lia|].
  rewrite length_fmap, length_tally_of.
  destruct (Nat.ltb_spec (Z.to_nat x) n) as [Hlt|]; [|lia].
  apply list_eq. intros j.
  destruct (decide (j = Z.to_nat x)) as [->|Hne].
  - rewrite list_lookup_insert_eq
      by (by rewrite length_fmap, length_tally_of).
    rewrite !list_lookup_fmap, !lookup_tally_of.
    rewrite !decide_True by done. simpl.
    rewrite count_index_snoc, decide_True by lia. done.
  - rewrite list_lookup_insert_ne by done.
    rewrite !list_lookup_fmap, !lookup_tally_of.
    case_decide; [|done]. simpl.
    rewrite count_index_snoc, decide_False by lia.
    by rewrite Z.add_0_r.
Qed.

Lemma foldl_bump_tally_of n todo : ∀ done,
  Forall (λ x, 0 ≤ x < Z.of_nat n)%Z todo →
  foldl bump (Num <$> tally_of n done) todo
  = Num <$> tally_of n (done ++ todo).
Proof.
  induction todo as [|x todo IH]; intros done Hall.
  - by rewrite app_nil_r.
  - apply Forall_cons in Hall as [Hx Hall]. simpl.
    rewrite bump_tally_of by done. rewrite IH by done.
    by rewrite <- app_assoc.
Qed.

Lemma total_snoc (counts : list Z) (c : Z) :
  total (counts ++ [c]) = (total counts + c)%Z.
Proof.
  unfold total. induction counts as [|a counts IH]; simpl; [lia|].
  rewrite IH. lia.
Qed.

Lemma length_filter_below (l : list Z) n :
  length (filter (λ x, 0 ≤ x < Z.of_nat (S n))%Z l)
  = length (filter (λ x, 0 ≤ x < Z.of_nat n)%Z l)
    + length (filter (λ x, x = Z.of_nat n) l).
Proof.
  induction l as [|a l IH]; [done|].
  rewrite !filter_cons.
  repeat case_decide; simpl; rewrite IH; lia.
Qed.

(** The counts add up to the number of indices inside [0, n). *)
Lemma total_tally_of n indices :
  total (tally_of n indices)
  = Z.of_nat (length (filter (λ x, 0 ≤ x < Z.of_nat n)%Z indices)).
Proof.
  induction n as [|n IH].
  - simpl. replace (filter _ indices) with (@nil Z); [done|].
    symmetry. induction indices as [|a l IHl]; [done|].
    rewrite filter_cons_False by lia. done.
  - unfold tally_of in *. rewrite seq_S, fmap_app. simpl.
    rewrite total_snoc, IH, length_filter_below.
    unfold count_index. lia.
Qed.

Lemma filter_all {A} (P : A → Prop) `{∀ x, Decision (P x)} (l : list A) :
  Forall P l → filter P l = l.
Proof.
  induction 1 as [|a l Ha _ IH]; [done|].
  rewrite filter_cons_True by done. by rewrite IH.
Qed.

Lemma length_filter_fmap {A B} (f : A → B) (P : B → Prop)
    `{∀ y, Decision (P y)} (l : list A) :
  length (filter P (f <$> l)) = length (filter (λ a, P (f a)) l).
Proof.
  induction l as [|a l IH]; [done|].
  rewrite fmap_cons, !filter_cons. case_decide; simpl; by rewrite IH.
Qed.
End tally.

Lemma getPollResults_answered (pollId : string) (w : World) :
  outages w = [] →
  getPollResults pollId w
  = (match polls_with pollId (polls w) with
     | [poll] =>
         mkResults
           (foldl bump (replicate (length (options poll)) (Num 0))
                  (option_index <$> votes_of pollId (votes w)))
           None
     | _ => mkResults [] (Some PollNotFound)
     end, w).
Proof.
  intros H. unfold getPollResults, bind.
  rewrite select_option_indices_answered by done. simpl.
  rewrite select_poll_answered by done.
  by destruct (polls_with pollId (polls w)) as [|poll [|poll' ps]].
Qed.

(** The claim C3 as it is worded fails when the votes query is lost.  The
    poll P has 2 options and its one vote has index 0, yet
    [getPollResults] returns the empty array with the store's error, not a
    sequence of 2 counts. *)
Lemma getPollResults_tally_counterexample :
  Scenario.red_blue ∈ polls Scenario.after_A_offline ∧
  2 ≤ length (options Scenario.red_blue) ∧
  (∀ v, v ∈ votes Scenario.after_A_offline → vote_poll_id v = "P" →
        (0 ≤ option_index v < Z.of_nat (length (options Scenario.red_blue)))%Z) ∧
  (getPollResults "P" Scenario.after_A_offline).1
    = mkResults [] (Some (StoreError RequestFailed)) ∧
  length (results (getPollResults "P" Scenario.after_A_offline).1)
    ≠ length (options Scenario.red_blue).
Proof.
  split_and!.
  - by left.
  - simpl. lia.
  - intros v Hv _. apply list_elem_of_singleton in Hv. subst v. simpl. lia.
  - reflexivity.
  - simpl. lia.
Qed.

(** C3, amended.  Provided the store answers both queries, when every vote
    of the poll has its index in
    [0, n), [getPollResults] returns, without error, a sequence of exactly
    [n] counts, none negative, that add up to the number of vote records of
    the poll, the count at position [i] being the number of votes whose
    index is [i]; with no vote the sequence is [n] zeros.  (The bound
    [n ≥ 2] of the data model is not needed.) *)
Theorem getPollResults_tally (pollId : string) (w : World) (poll : Poll) :
  store_ok w → outages w = [] → poll ∈ polls w → poll_id poll = pollId →
  (∀ v, v ∈ votes w → vote_poll_id v = pollId →
        (0 ≤ option_index v < Z.of_nat (length (options poll)))%Z) →
  ∃ counts : list Z,
    getPollResults pollId w = (mkResults (Num <$> counts) None, w) ∧
    length counts = length (options poll) ∧
    Forall (λ c, 0 ≤ c)%Z counts ∧
    total counts = Z.of_nat (length (votes_of pollId (votes w))) ∧
    (∀ i, i < length (options poll) →
          counts !! i
          = Some (Z.of_nat (length (filter (λ v, option_index v = Z.of_nat i)
                                           (votes_of pollId (votes w)))))) ∧
    (votes_of pollId (votes w) = [] →
     counts = replicate (length (options poll)) 0%Z).
Proof.
  intros Hok Hans Hin <- Hrange.
  set (n := length (options poll)).
  set (indices := option_index <$> votes_of (poll_id poll) (votes w)).
  assert (Forall (λ x, 0 ≤ x < Z.of_nat n)%Z indices) as Hall.
  { apply Forall_fmap, Forall_forall. intros v Hv.
    apply list_elem_of_filter in Hv as [Hp Hv]. simpl. by apply Hrange. }
  exists (tally_of n indices). split_and!.
  - rewrite getPollResults_answered by done.
    rewrite (polls_with_one poll w) by done.
    fold n indices. rewrite zeros_tally_of.
    by rewrite foldl_bump_tally_of.
  - apply length_tally_of.
  - apply Forall_forall. intros c Hc. unfold tally_of in Hc.
    apply list_elem_of_fmap in Hc as (i & -> & _). unfold count_index. lia.
  - rewrite total_tally_of, filter_all by done.
    unfold indices. by rewrite length_fmap.
  - intros i Hi. rewrite lookup_tally_of, decide_True by done.
    unfold count_index, indices. by rewrite length_filter_fmap.
  - intros Hnil. apply list_eq. intros j.
    rewrite lookup_tally_of. unfold indices. rewrite Hnil. case_decide.
    + by rewrite lookup_replicate_2.
    + symmetry. apply lookup_replicate_None. lia.
Qed.

Lemma getPollResults_tally_witness :
  ∃ counts : list Z,
    getPollResults "P" Scenario.after_A
    = (mkResults (Num <$> counts) None, Scenario.after_A) ∧
    length counts = 2 ∧
    Forall (λ c, 0 ≤ c)%Z counts ∧
    total counts = Z.of_nat (length (votes_of "P" (votes Scenario.after_A))) ∧
    (∀ i, i < 2 →
          counts !! i
          = Some (Z.of_nat (length (filter (λ v, option_index v = Z.of_nat i)
                                           (votes_of "P" (votes Scenario.after_A)))))) ∧
    (votes_of "P" (votes Scenario.after_A) = [] → counts = replicate 2 0%Z).
Proof.
  apply (getPollResults_tally "P" Scenario.after_A Scenario.red_blue).
  - exact store_ok_after_A.
  - reflexivity.
  - left.
  - reflexivity.
  - intros v Hv _. apply list_elem_of_singleton in Hv. subst v. simpl. lia.
Defined.

(** An index past the end grows the array and leaves [NaN] behind. *)
Example bump_past_the_end : bump [Num 0; Num 0] 3 = [Num 0; Num 0; Hole; NaN].
Proof. reflexivity. Qed.




(** [getPollResults] only reads: apart from the outage script the world is
    as it was, and an error comes with the empty array. *)
Lemma getPollResults_inv (pollId : string) (w : World) :
  ∀ r w', getPollResults pollId w = (r, w') →
    w' = set_outages (outages w') w ∧
    (is_Some (results_error r) → results r = []).
Proof.
  intros r w'. unfold getPollResults, select_option_indices, select_poll,
    bind, round_trip, ret.
  destruct w as [ps vs nid ck os cs pe us]. simpl.
  destruct os as [|[] [|[] rest]]; simpl;
    try destruct (polls_with pollId ps) as [|poll [|poll' ps']]; simpl;
    intros [= <- <-]; simpl; split; try done; by intros [? [=]].
Qed.

(** ** subscribeToResults *)

(** The claim C7 as it is worded fails.  The subscription with handle 0
    watches P; the owner deletes P; the next change event makes the
    listener recompute the tally, which fails with [PollNotFound].  The
    callback is then called with the empty array, after the earlier call
    that carried a tally, and the channel is still joined. *)
Lemma subscribeToResults_failure_counterexample :
  subscribeToResults "P" Scenario.fresh = ((0, None), Scenario.subscribed) ∧
  deliver (submitVote "P" "A" 0 Scenario.subscribed).2 = ((), Scenario.live) ∧
  deletePoll "P" "owner" Scenario.live
    = (mkDelete true None, Scenario.deleted) ∧
  (getPollResults "P" Scenario.deleted).1 = mkResults [] (Some PollNotFound) ∧
  deliver Scenario.deleted = ((), Scenario.after_deletion_event) ∧
  updates Scenario.after_deletion_event
    = updates Scenario.deleted ++ [(0, [])] ∧
  channels Scenario.after_deletion_event = [mkChannel "poll_P" "P" true].
Proof. by split_and!. Qed.

(** C7, amended.  When the recomputation of the tally fails, the listener
    drops the error: it calls the callback once with the empty array, as
    it would with a tally, and the subscription is neither ended nor
    changed, so that the next change event recomputes again. *)
Theorem failed_recomputation_reaches_callback (handle : nat) (pollId : string)
    (w : World) (r : PollResults) (w1 : World) :
  getPollResults pollId w = (r, w1) → is_Some (results_error r) →
  ∃ w2, on_postgres_changes handle pollId w = ((), w2) ∧
        updates w2 = updates w ++ [(handle, [])] ∧
        channels w2 = channels w ∧
        polls w2 = polls w ∧ votes w2 = votes w.
Proof.
  intros Hget Herr. unfold on_postgres_changes, bind. rewrite Hget.
  apply getPollResults_inv in Hget as [Hw Hempty].
  rewrite (Hempty Herr). unfold onUpdate. eexists. split; [reflexivity|].
  rewrite Hw. done.
Qed.

Lemma failed_recomputation_reaches_callback_witness :
  ∃ w2, on_postgres_changes 0 "P" Scenario.deleted = ((), w2) ∧
        updates w2 = updates Scenario.deleted ++ [(0, [])] ∧
        channels w2 = channels Scenario.deleted ∧
        polls w2 = polls Scenario.deleted ∧ votes w2 = votes Scenario.deleted.
Proof.
  apply (failed_recomputation_reaches_callback 0 "P" Scenario.deleted
           (mkResults [] (Some PollNotFound)) Scenario.deleted).
  - reflexivity.
  - exists PollNotFound. reflexivity.
Defined.

(** ** deletePoll *)

Lemma select_poll_inv (id : string) (w : World) :
  ∀ r w', select_poll id w = (r, w') →
    polls w' = polls w ∧ votes w' = votes w ∧
    ∀ poll, data r = Some poll → poll ∈ polls w ∧ poll_id poll = id.
Proof.
  intros r w'. unfold select_poll, bind, round_trip, ret.
  destruct (outages w) as [|[] rest]; simpl;
    try (destruct (polls_with id (polls w)) as [|poll [|poll' ps]] eqn:Hp);
    intros [= <- <-]; simpl; split_and!; try done;
    intros ? [= <-]; apply (polls_with_elem id); rewrite Hp; by left.
Qed.

(** C9. When no poll with the identifier is recorded as created by the
    user (the poll does not exist, or its creator is someone else),
    [deletePoll] returns [success: false] with the authorization error and
    both tables are exactly as they were. *)
Theorem deletePoll_unauthorized (id userId : string) (w : World) :
  (∀ p, p ∈ polls w → poll_id p = id → created_by p ≠ userId) →
  ∃ w', deletePoll id userId w = (mkDelete false (Some NotAuthorized), w') ∧
        polls w' = polls w ∧ votes w' = votes w.
Proof.
  intros Hnot. unfold deletePoll, bind.
  destruct (select_poll id w) as [r w1] eqn:Hsel.
  apply select_poll_inv in Hsel as (Hp & Hv & Hdata).
  destruct (data r) as [poll|]; [|by exists w1].
  destruct (Hdata poll eq_refl) as [Hin Hid].
  rewrite bool_decide_eq_true_2 by (by apply Hnot). by exists w1.
Qed.

Lemma deletePoll_unauthorized_witness :
  ∃ w', deletePoll "P" "A" Scenario.after_A
        = (mkDelete false (Some NotAuthorized), w') ∧
        polls w' = polls Scenario.after_A ∧ votes w' = votes Scenario.after_A.
Proof.
  apply (deletePoll_unauthorized "P" "A" Scenario.after_A).
  intros p Hp Hid.
  apply elem_of_cons in Hp as [->|Hp]; [discriminate|].
  apply list_elem_of_singleton in Hp. subst p. discriminate Hid.
Defined.

(** C8. [deletePoll] reports success only to the creator of an existing
    poll, and after a success neither a poll with that identifier nor a
    vote that references it is left in the store. *)
Theorem deletePoll_success (id userId : string) (w : World)
    (r : DeleteResult) (w' : World) :
  deletePoll id userId w = (r, w') → success r = true →
  (∃ poll, poll ∈ polls w ∧ poll_id poll = id ∧ created_by poll = userId) ∧
  (∀ p, p ∈ polls w' → poll_id p ≠ id) ∧
  (∀ v, v ∈ votes w' → vote_poll_id v ≠ id).
Proof.
  unfold deletePoll, bind.
  destruct (select_poll id w) as [rs w1] eqn:Hsel.
  apply select_poll_inv in Hsel as (Hp & Hv & Hdata).
  destruct (data rs) as [poll|]; [|by intros [= <- <-]].
  destruct (Hdata poll eq_refl) as [Hin Hid].
  case_bool_decide as Hown; [by intros [= <- <-]|].
  assert (created_by poll = userId) as Hcreator
    by (destruct (decide (created_by poll = userId)); [done|by destruct Hown]).
  unfold delete_votes, delete_poll_row, bind, round_trip, ret.
  destruct w1 as [ps vs nid ck os cs pe us]. simpl in *.
  destruct os as [|[] [|[] rest]]; simpl;
    intros [= <- <-]; try done; intros _;
    (split; [by exists poll|]); simpl;
    (split; [intros p Hp'|intros v Hv']);
    repeat (apply list_elem_of_filter in Hp' as [? Hp']);
    repeat (apply list_elem_of_filter in Hv' as [? Hv']); done.
Qed.

Lemma deletePoll_success_witness :
  (∃ poll, poll ∈ polls Scenario.live ∧ poll_id poll = "P" ∧
           created_by poll = "owner") ∧
  (∀ p, p ∈ polls Scenario.deleted → poll_id p ≠ "P") ∧
  (∀ v, v ∈ votes Scenario.deleted → vote_poll_id v ≠ "P").
Proof.
  apply (deletePoll_success "P" "owner" Scenario.live
           (mkDelete true None) Scenario.deleted).
  - reflexivity.
  - reflexivity.
Defined.

(** The owner's request goes through when the store answers. *)
Lemma deletePoll_by_owner (poll : Poll) (w : World) :
  store_ok w → outages w = [] → poll ∈ polls w →
  (deletePoll (poll_id poll) (created_by poll) w).1 = mkDelete true None.
Proof.
  intros Hok Hans Hin. unfold deletePoll, bind.
  rewrite select_poll_answered, (polls_with_one poll w) by done. simpl.
  rewrite bool_decide_eq_false_2 by (intros Hne; by apply Hne).
  unfold delete_votes, delete_poll_row, bind, round_trip.
  destruct w as [ps vs nid ck os cs pe us]. simpl in *. by subst os.
Qed.

(** ** The poll-creation endpoint *)

Example POST_valid_body :
  (Route.POST (Route.JsonBody Route.valid_body) Scenario.fresh).1
  = Route.mkHttp 201
      (Route.Created "Poll created successfully"
         (Route.mkPollData "Tea or coffee?"
            [Route.mkOption "Tea"; Route.mkOption "Coffee"])).
Proof. reflexivity. Qed.

Example POST_short_body :
  (Route.POST (Route.JsonBody Route.short_body) Scenario.fresh).1
  = Route.mkHttp 400
      (Route.InvalidRequest "Invalid request data"
         [Route.mkIssue Route.too_small [Route.Key "question"];
          Route.mkIssue Route.too_small [Route.Key "options"]]).
Proof. reflexivity. Qed.

Section schema.
Import Route.

Lemma parse_string_min_valid (m : nat) (at_path : list PathPart)
    (input : option Json) (s : string) :
  parse_string_min m at_path input = Valid s
  ↔ input = Some (JString s) ∧ m ≤ String.length s.
Proof.
  unfold parse_string_min.
  destruct input as [[| | |s'| |]|];
    try (split; [done|by intros [[=] _]]).
  destruct (Nat.leb_spec m (String.length s')).
  - split; [by intros [= ->]|by intros [[= ->] _]].
  - split; [done|]. intros [[= ->] ?]. lia.
Qed.

Lemma parse_string_min_invalid (m : nat) (at_path : list PathPart)
    (input : option Json) (issues : list ZodIssue) :
  parse_string_min m at_path input = Invalid issues → issues ≠ [].
Proof.
  unfold parse_string_min.
  destruct input as [[| | |s'| |]|]; try by intros [= <-].
  by destruct (m <=? String.length s')%nat; intros [= <-].
Qed.

Lemma parse_option_valid (at_path : list PathPart) (item : Json)
    (v : OptionData) :
  parse_option at_path (Some item) = Valid v ↔ option_with_text item (text v).
Proof.
  unfold parse_option, option_with_text.
  destruct item as [| | | | |members];
    try (split; [done|by intros (? & [=] & _)]).
  destruct (parse_string_min 1 (at_path ++ [Key "text"]) (member "text" members))
    as [s|issues] eqn:Hs.
  - apply parse_string_min_valid in Hs as [Hm Hlen]. split.
    + intros [= <-]. by exists members.
    + intros (ms & [= <-] & Hm' & _). destruct v as [t]. simpl in *. congruence.
  - split; [done|]. intros (ms & [= <-] & Hm' & Hlen).
    assert (parse_string_min 1 (at_path ++ [Key "text"]) (member "text" members)
            = Valid (text v)) as Hv by (by apply parse_string_min_valid).
    congruence.
Qed.

Lemma parse_option_invalid (at_path : list PathPart) (input : option Json)
    (issues : list ZodIssue) :
  parse_option at_path input = Invalid issues → issues ≠ [].
Proof.
  unfold parse_option.
  destruct input as [[| | | | |members]|]; try by intros [= <-].
  destruct (parse_string_min 1 (at_path ++ [Key "text"]) (member "text" members))
    as [s|found] eqn:Hs; [done|].
  intros [= <-]. by eapply parse_string_min_invalid.
Qed.

Lemma parse_items_clean (at_path : list PathPart) (items : list Json)
    (texts : list string) :
  Forall2 option_with_text items texts →
  ∀ i, parse_items at_path i items = ([], mkOption <$> texts).
Proof.
  induction 1 as [|item t items texts Hitem _ IH]; intros i; [done|].
  cbn [parse_items]. rewrite IH.
  assert (parse_option (at_path ++ [Index i]) (Some item) = Valid (mkOption t))
    as -> by (by apply parse_option_valid).
  done.
Qed.

Lemma parse_items_issues (at_path : list PathPart) (items : list Json) :
  ∀ i, (parse_items at_path i items).1 = [] →
       Forall2 option_with_text items (text <$> (parse_items at_path i items).2).
Proof.
  induction items as [|item items IH]; intros i; cbn [parse_items];
    [by constructor|].
  specialize (IH (S i)).
  destruct (parse_items at_path (S i) items) as [issues values].
  simpl in IH.
  destruct (parse_option (at_path ++ [Index i]) (Some item)) as [v|found] eqn:Hv;
    simpl.
  - intros Hnil. constructor; [|by apply IH].
    exact (proj1 (parse_option_valid _ _ v) Hv).
  - intros Hnil. apply app_eq_nil in Hnil as [-> _].
    by apply parse_option_invalid in Hv.
Qed.

Lemma parse_options_valid (at_path : list PathPart) (input : option Json)
    (values : list OptionData) :
  parse_options at_path input = Valid values
  ↔ ∃ items, input = Some (JArray items) ∧ 2 ≤ length items ∧
             Forall2 option_with_text items (text <$> values).
Proof.
  unfold parse_options.
  destruct input as [[| | | |items|]|];
    try (split; [done|by intros (? & [=] & _)]).
  split.
  - pose proof (parse_items_issues at_path items 0) as Hitems.
    destruct (parse_items at_path 0 items) as [issues vs]. simpl in Hitems.
    destruct (Nat.ltb_spec (length items) 2); [done|].
    destruct issues; [|done]. simpl. intros [= <-].
    exists items. eauto.
  - intros (items' & [= <-] & Hlen & Hall).
    rewrite (parse_items_clean _ _ _ Hall).
    destruct (Nat.ltb_spec (length items) 2); [lia|]. simpl.
    f_equal. clear. induction values as [|[t] values IH]; [done|].
    by rewrite !fmap_cons, IH.
Qed.

Lemma parse_options_invalid (at_path : list PathPart) (input : option Json)
    (issues : list ZodIssue) :
  parse_options at_path input = Invalid issues → issues ≠ [].
Proof.
  unfold parse_options.
  destruct input as [[| | | |items|]|]; try by intros [= <-].
  destruct (parse_items at_path 0 items) as [found vs].
  destruct (_ ++ found) eqn:Hall; [done|]. by intros [= <-].
Qed.

Lemma pollSchema_parse_valid (body : Json) (data : PollData) :
  pollSchema_parse body = Valid data
  ↔ meets_schema body (question data) (text <$> options data).
Proof.
  unfold pollSchema_parse, meets_schema.
  destruct body as [| | | | |members];
    try (split; [done|by intros (? & ? & [=] & _)]).
  destruct (parse_string_min 5 [Key "question"] (member "question" members))
    as [q|qi] eqn:Hq;
    destruct (parse_options [Key "options"] (member "options" members))
      as [o|oi] eqn:Ho.
  - apply parse_string_min_valid in Hq as [Hq Hqlen].
    apply parse_options_valid in Ho as (items & Ho & Holen & Hall).
    split.
    + intros [= <-]. exists members, items. by split_and!.
    + intros (ms & items' & [= <-] & Hq' & _ & Ho' & _ & Hall').
      destruct data as [q' o']. simpl in *.
      assert (parse_options [Key "options"] (member "options" members) = Valid o')
        as Hv by (apply parse_options_valid; exists items'; split_and!; [done| |done];
                  apply Forall2_length in Hall, Hall';
                  rewrite length_fmap in *; congruence).
      assert (parse_options [Key "options"] (member "options" members) = Valid o)
        as Hv' by (apply parse_options_valid; exists items; by split_and!).
      congruence.
  - split; [done|].
    intros (ms & items & [= <-] & _ & _ & Ho' & Hlen & Hall).
    assert (parse_options [Key "options"] (member "options" members)
            = Valid (options data)) as Hv
      by (apply parse_options_valid; exists items; by split_and!).
    congruence.
  - split; [done|].
    intros (ms & items & [= <-] & Hq' & Hlen & _).
    assert (parse_string_min 5 [Key "question"] (member "question" members)
            = Valid (question data)) as Hv
      by (by apply parse_string_min_valid).
    congruence.
  - split; [done|].
    intros (ms & items & [= <-] & Hq' & Hlen & _).
    assert (parse_string_min 5 [Key "question"] (member "question" members)
            = Valid (question data)) as Hv
      by (by apply parse_string_min_valid).
    congruence.
Qed.

Lemma pollSchema_parse_invalid (body : Json) (issues : list ZodIssue) :
  pollSchema_parse body = Invalid issues → issues ≠ [].
Proof.
  unfold pollSchema_parse.
  destruct body as [| | | | |members]; try by intros [= <-].
  destruct (parse_string_min 5 [Key "question"] (member "question" members))
    as [q|qi] eqn:Hq;
    destruct (parse_options [Key "options"] (member "options" members))
      as [o|oi] eqn:Ho; [done| | |]; simpl; intros [= <-].
  - by eapply parse_options_invalid.
  - rewrite app_nil_r. by eapply parse_string_min_invalid.
  - intros Hnil. apply app_eq_nil in Hnil as [-> _].
    by eapply parse_string_min_invalid in Hq.
Qed.
End schema.

Lemma text_mkOption (texts : list string) :
  Route.text <$> (Route.mkOption <$> texts) = texts.
Proof. induction texts as [|t texts IH]; [done|]. by rewrite !fmap_cons, IH. Qed.

(** The claim C10 as it is worded fails for a request whose body is not
    JSON: it violates the schema, yet the handler answers 500, neither 201
    nor 400 with validation errors. *)
Lemma POST_counterexample :
  (Route.POST Route.NotJson Scenario.fresh).1
    = Route.mkHttp 500 (Route.ServerError "Internal server error") ∧
  Route.status (Route.POST Route.NotJson Scenario.fresh).1 ≠ 400 ∧
  Route.status (Route.POST Route.NotJson Scenario.fresh).1 ≠ 201.
Proof. by split_and!. Qed.

(** C10, amended.  For a request whose body is JSON, the handler answers
    201 with the parsed data exactly when the body has a question of at
    least 5 characters and an array of at least 2 options each with
    non-empty text, and 400 with a non-empty list of validation errors for
    every JSON body that violates the schema.  A body that is not JSON is
    answered with 500.  In no case does the handler write to the store. *)
Theorem POST_spec (body : Route.Json) (w : World) :
  (∀ q texts,
     Route.meets_schema body q texts ↔
     Route.POST (Route.JsonBody body) w
     = (Route.mkHttp 201
          (Route.Created "Poll created successfully"
             (Route.mkPollData q (Route.mkOption <$> texts))), w)) ∧
  (Route.status (Route.POST (Route.JsonBody body) w).1 = 201 →
     ∃ q texts, Route.meets_schema body q texts) ∧
  ((∀ q texts, ¬ Route.meets_schema body q texts) →
     ∃ errors, errors ≠ [] ∧
       Route.POST (Route.JsonBody body) w
       = (Route.mkHttp 400 (Route.InvalidRequest "Invalid request data" errors), w)) ∧
  (Route.POST (Route.JsonBody body) w).2 = w ∧
  Route.POST Route.NotJson w
  = (Route.mkHttp 500 (Route.ServerError "Internal server error"), w).
Proof.
  unfold Route.POST, ret.
  destruct (Route.pollSchema_parse body) as [data|issues] eqn:Hparse.
  - pose proof (proj1 (pollSchema_parse_valid body data) Hparse) as Hmeets.
    split_and!; try done.
    + intros q texts. split.
      * intros Hm.
        assert (Route.pollSchema_parse body
                = Route.Valid (Route.mkPollData q (Route.mkOption <$> texts))) as Hv
          by (apply pollSchema_parse_valid; simpl; by rewrite text_mkOption).
        congruence.
      * intros [= ->]. simpl in Hmeets. by rewrite text_mkOption in Hmeets.
    + intros _. eauto.
    + intros Hnone. by destruct (Hnone _ _ Hmeets).
  - split_and!; try done.
    + intros q texts. split; [|done]. intros Hm.
      assert (Route.pollSchema_parse body
              = Route.Valid (Route.mkPollData q (Route.mkOption <$> texts))) as Hv
        by (apply pollSchema_parse_valid; simpl; by rewrite text_mkOption).
      congruence.
    + intros _. exists issues. split; [|done].
      by eapply pollSchema_parse_invalid.
Qed.

Lemma POST_spec_witness :
  Route.POST (Route.JsonBody Route.valid_body) Scenario.fresh
  = (Route.mkHttp 201
       (Route.Created "Poll created successfully"
          (Route.mkPollData "Tea or coffee?" (Route.mkOption <$> ["Tea"; "Coffee"]))),
     Scenario.fresh).
Proof.
  apply (proj1 (POST_spec Route.valid_body Scenario.fresh)).
  exists [("question", Route.JString "Tea or coffee?");
          ("options", Route.JArray [Route.JObject [("text", Route.JString "Tea")];
                                    Route.JObject [("text", Route.JString "Coffee")]]);
          ("draft", Route.JBool true)],
         [Route.JObject [("text", Route.JString "Tea")];
          Route.JObject [("text", Route.JString "Coffee")]].
  split_and!.
  - reflexivity.
  - reflexivity.
  - vm_compute. lia.
  - reflexivity.
  - vm_compute. lia.
  - repeat constructor.
    + exists [("text", Route.JString "Tea")].
      split_and!; [reflexivity|reflexivity|vm_compute; lia].
    + exists [("text", Route.JString "Coffee")].
      split_and!; [reflexivity|reflexivity|vm_compute; lia].
Defined.

(** ** The constraints are kept by every operation *)

Lemma submitVote_store_ok (pollId userId : string) (optionIndex : Z)
    (w : World) (r : SubmitResult) (w' : World) :
  store_ok w → submitVote pollId userId optionIndex w = (r, w') → store_ok w'.
Proof.
  intros [Hpk Huniq] Hsub. destruct (vote r) as [row|] eqn:Hrow.
  - destruct (submitVote_inv _ _ _ _ _ _ Hsub row Hrow)
      as (_ & _ & Hno & Hvs & Hkey & Hps).
    split; [by rewrite Hps|]. rewrite Hvs, fmap_app. apply NoDup_app.
    split_and!; [done| |apply NoDup_singleton].
    intros k Hk Hrowk. apply list_elem_of_singleton in Hrowk. subst k.
    apply list_elem_of_fmap in Hk as (v & Hv & Hin). apply Hno. exists v.
    rewrite Hkey in Hv. unfold vote_key in Hv. by injection Hv as <- <-.
  - destruct (submitVote_rejected_writes_nothing _ _ _ _ _ _ Hsub Hrow)
      as [Hvs Hps].
    split; by rewrite ?Hvs, ?Hps.
Qed.

Lemma deletePoll_sublist (id userId : string) (w : World)
    (r : DeleteResult) (w' : World) :
  deletePoll id userId w = (r, w') →
  polls w' `sublist_of` polls w ∧ votes w' `sublist_of` votes w.
Proof.
  unfold deletePoll, bind.
  destruct (select_poll id w) as [rs w1] eqn:Hsel.
  apply select_poll_inv in Hsel as (Hp & Hv & _). rewrite <- Hp, <- Hv.
  destruct (data rs) as [poll|]; [|by intros [= <- <-]].
  case_bool_decide; [by intros [= <- <-]|].
  unfold delete_votes, delete_poll_row, bind, round_trip, ret.
  destruct w1 as [ps vs nid ck os cs pe us]. simpl.
  destruct os as [|[] [|[] rest]]; simpl; intros [= <- <-]; simpl;
    split; try done;
    repeat (etrans; [apply sublist_filter|]); done.
Qed.

Lemma deletePoll_store_ok (id userId : string) (w : World)
    (r : DeleteResult) (w' : World) :
  store_ok w → deletePoll id userId w = (r, w') → store_ok w'.
Proof.
  intros [Hpk Huniq] Hdel.
  apply deletePoll_sublist in Hdel as [Hps Hvs].
  split; eapply sublist_NoDup; try eassumption; by apply fmap_sublist.
Qed.

(** * Further properties of the voting service *)

(** ** submitVote: the accepted submission and the shape of every outcome *)

Lemma submitVote_insert_answered (pollId userId : string) (optionIndex : Z)
    (w : World) (poll : Poll) (ps : list Poll) :
  outages w = [] → votes_by pollId userId (votes w) = [] →
  polls_with pollId (polls w) = poll :: ps →
  submitVote_insert pollId userId optionIndex w
  = (mkSubmit (Some (mkVote (next_vote_id w) (clock w) pollId userId optionIndex))
              None,
     set_pending (pending w ++ [pollId])
       (set_next_vote_id (S (next_vote_id w))
          (set_votes
             (votes w ++ [mkVote (next_vote_id w) (clock w) pollId userId optionIndex])
             w))).
Proof.
  intros Hans Hnone Hpoll. unfold submitVote_insert, bind, ret.
  rewrite insert_vote_answered by done. by rewrite Hnone, Hpoll.
Qed.

Lemma in_range_not_out (optionIndex : Z) (poll : Poll) :
  (0 ≤ optionIndex < Z.of_nat (length (options poll)))%Z →
  out_of_range optionIndex poll = false.
Proof.
  intros Hin. destruct (out_of_range optionIndex poll) eqn:Hout; [|done].
  apply out_of_range_outside in Hout. lia.
Qed.

Lemma not_past_expiry_not_expired (poll : Poll) (now : Z) :
  ¬ past_expiry poll now → expired poll now = false.
Proof.
  intros Hno. destruct (expired poll now) eqn:He; [|done].
  by apply expired_past_expiry in He.
Qed.

(** X1. When the store answers, a first submission of a voter with an index
    in [0, n) against an existing poll that has not expired is accepted:
    the vote that comes back carries the poll, the voter and the index
    asked for, the identifier and the time the store gave it, and no
    error; the votes table grows by exactly that row, the polls table is
    not touched, and one change event for the poll is queued. *)
Theorem submitVote_accepts (pollId userId : string) (optionIndex : Z)
    (w : World) (poll : Poll) :
  store_ok w → outages w = [] → ¬ voted pollId userId w →
  poll ∈ polls w → poll_id poll = pollId → ¬ past_expiry poll (clock w) →
  (0 ≤ optionIndex < Z.of_nat (length (options poll)))%Z →
  ∃ w',
    submitVote pollId userId optionIndex w
    = (mkSubmit (Some (mkVote (next_vote_id w) (clock w) pollId userId optionIndex))
                None, w') ∧
    votes w'
    = votes w ++ [mkVote (next_vote_id w) (clock w) pollId userId optionIndex] ∧
    polls w' = polls w ∧ pending w' = pending w ++ [pollId] ∧
    outages w' = [] ∧ channels w' = channels w ∧ updates w' = updates w.
Proof.
  intros Hok Hans Hno Hin <- Hexp Hrange.
  apply votes_by_none in Hno.
  rewrite submitVote_answered, submitVote_checks_answered by done. simpl.
  rewrite Hno, (polls_with_one poll w) by done.
  rewrite not_past_expiry_not_expired, in_range_not_out by done. simpl.
  rewrite (submitVote_insert_answered _ _ _ _ poll [])
    by (done || by apply polls_with_one).
  eexists. split; [reflexivity|]. by split_and!.
Qed.

Lemma submitVote_accepts_witness :
  ∃ w',
    submitVote "P" "B" 1 Scenario.after_A
    = (mkSubmit (Some (mkVote 1 100 "P" "B" 1)) None, w') ∧
    votes w' = votes Scenario.after_A ++ [mkVote 1 100 "P" "B" 1] ∧
    polls w' = polls Scenario.after_A ∧
    pending w' = pending Scenario.after_A ++ ["P"] ∧
    outages w' = [] ∧ channels w' = channels Scenario.after_A ∧
    updates w' = updates Scenario.after_A.
Proof.
  apply (submitVote_accepts "P" "B" 1 Scenario.after_A Scenario.red_blue).
  - exact store_ok_after_A.
  - reflexivity.
  - apply votes_by_none. reflexivity.
  - left.
  - reflexivity.
  - intros (t & Ht & _). discriminate Ht.
  - simpl. lia.
Defined.

(** X2. Whatever the store does, [submitVote] resolves to a vote or to an
    error, never to both and never to neither.  With a vote, the votes
    table has grown by exactly that row, which carries the poll, the voter
    and the index of the call; with an error, the votes table is as it
    was.  The polls table is never touched. *)
Theorem submitVote_vote_xor_error (pollId userId : string) (optionIndex : Z)
    (w : World) :
  let r := (submitVote pollId userId optionIndex w).1 in
  let w' := (submitVote pollId userId optionIndex w).2 in
  polls w' = polls w ∧
  ((∃ row, vote r = Some row ∧ submit_error r = None ∧
           votes w' = votes w ++ [row] ∧
           vote_poll_id row = pollId ∧ user_id row = userId ∧
           option_index row = optionIndex)
   ∨ (vote r = None ∧ is_Some (submit_error r) ∧ votes w' = votes w)).
Proof.
  simpl. unfold submitVote, bind.
  destruct (submitVote_checks pollId userId optionIndex w) as [f wc] eqn:Hc.
  apply submitVote_checks_inv in Hc as [Hpc Hvc].
  destruct f as [e|]; simpl; [split; [done|]; right; by eauto|].
  unfold submitVote_insert, bind, ret.
  destruct (insert_vote pollId userId optionIndex wc) as [ri wi] eqn:Hi.
  apply insert_vote_inv in Hi as [Hpi Hi]. simpl.
  split; [congruence|].
  destruct (data ri) as [row|].
  - left. exists row. destruct Hi as (-> & _ & Hvs & ? & ? & ?).
    split_and!; try done. congruence.
  - right. destruct Hi as [[e ->] Hvs]. split_and!; [done|by eexists|congruence].
Qed.

(** ** getPollResults: one more vote, and votes whose index is off *)

Lemma tally_of_snoc (n : nat) (indices : list Z) (x : Z) :
  tally_of n (indices ++ [x]) = alter Z.succ (Z.to_nat x) (tally_of n indices)
  ∨ ¬ (0 ≤ x < Z.of_nat n)%Z.
Proof.
  destruct (decide (0 ≤ x < Z.of_nat n)%Z) as [Hx|]; [left|by right].
  apply list_eq. intros j.
  rewrite list_lookup_alter, !lookup_tally_of.
  destruct (decide (Z.to_nat x = j)) as [<-|Hne].
  - rewrite !decide_True by lia. simpl.
    rewrite count_index_snoc, decide_True by lia. f_equal.
  - case_decide; [|done].
    rewrite count_index_snoc, decide_False by lia. f_equal. lia.
Qed.

Lemma votes_of_snoc (pollId : string) (vs : list Vote) (row : Vote) :
  vote_poll_id row = pollId → votes_of pollId (vs ++ [row]) = votes_of pollId vs ++ [row].
Proof.
  intros Hp. unfold votes_of. rewrite filter_app. f_equal.
  by rewrite filter_cons_True.
Qed.

(** X4. An accepted vote moves the tally by one at its own position and
    nowhere else: when the store answers and the votes of the poll all have
    their index in [0, n), the tally read after an accepted submission with
    index [i] is the tally read before it with the count at [i] one
    higher. *)
Theorem getPollResults_after_vote (pollId userId : string) (optionIndex : Z)
    (w : World) (poll : Poll) :
  store_ok w → outages w = [] → ¬ voted pollId userId w →
  poll ∈ polls w → poll_id poll = pollId → ¬ past_expiry poll (clock w) →
  (0 ≤ optionIndex < Z.of_nat (length (options poll)))%Z →
  (∀ v, v ∈ votes w → vote_poll_id v = pollId →
        (0 ≤ option_index v < Z.of_nat (length (options poll)))%Z) →
  ∃ counts : list Z,
    (getPollResults pollId w).1 = mkResults (Num <$> counts) None ∧
    (getPollResults pollId (submitVote pollId userId optionIndex w).2).1
    = mkResults (Num <$> alter Z.succ (Z.to_nat optionIndex) counts) None.
Proof.
  intros Hok Hans Hno Hin <- Hexp Hrange Hall.
  set (n := length (options poll)).
  set (indices := option_index <$> votes_of (poll_id poll) (votes w)).
  assert (Forall (λ x, 0 ≤ x < Z.of_nat n)%Z indices) as Hindices.
  { apply Forall_fmap, Forall_forall. intros v Hv.
    apply list_elem_of_filter in Hv as [Hp Hv]. simpl. by apply Hall. }
  exists (tally_of n indices). split.
  - rewrite getPollResults_answered by done.
    rewrite (polls_with_one poll w) by done. fold n indices. simpl.
    by rewrite zeros_tally_of, foldl_bump_tally_of.
  - pose proof Hno as Hnone. apply votes_by_none in Hnone.
    rewrite submitVote_answered, submitVote_checks_answered by done. simpl.
    rewrite Hnone, (polls_with_one poll w) by done.
    rewrite not_past_expiry_not_expired, in_range_not_out by done. simpl.
    rewrite (submitVote_insert_answered _ _ _ _ poll [])
      by (done || by apply polls_with_one).
    rewrite getPollResults_answered by done. simpl.
    rewrite (polls_with_one poll w) by done. simpl.
    rewrite votes_of_snoc, fmap_app by done. fold n indices. simpl.
    assert (Forall (λ x, 0 ≤ x < Z.of_nat n)%Z (indices ++ [optionIndex])) as Hmore
      by (apply Forall_app; split; [done|]; by apply Forall_singleton).
    rewrite zeros_tally_of, foldl_bump_tally_of by done.
    simpl. destruct (tally_of_snoc n indices optionIndex) as [->|]; done.
Qed.

Lemma getPollResults_after_vote_witness :
  ∃ counts : list Z,
    (getPollResults "P" Scenario.after_A).1 = mkResults (Num <$> counts) None ∧
    (getPollResults "P" (submitVote "P" "B" 1 Scenario.after_A).2).1
    = mkResults (Num <$> alter Z.succ (Z.to_nat 1) counts) None.
Proof.
  apply (getPollResults_after_vote "P" "B" 1 Scenario.after_A Scenario.red_blue).
  - exact store_ok_after_A.
  - reflexivity.
  - apply votes_by_none. reflexivity.
  - left.
  - reflexivity.
  - intros (t & Ht & _). discriminate Ht.
  - simpl. lia.
  - intros v Hv _. apply list_elem_of_singleton in Hv. subst v. simpl. lia.
Defined.

Section results_array.
Implicit Types (rs : list JsVal) (x : Z) (l : list Z).

Lemma length_bump rs x :
  length (bump rs x)
  = if (x <? 0)%Z then length rs else length rs `max` S (Z.to_nat x).
Proof.
  unfold bump. destruct (x <? 0)%Z; [done|].
  destruct (Nat.ltb_spec (Z.to_nat x) (length rs)).
  - rewrite length_insert. lia.
  - rewrite !length_app, length_replicate. simpl. lia.
Qed.

Lemma length_foldl_bump_le rs l : length rs ≤ length (foldl bump rs l).
Proof.
  revert rs. induction l as [|x l IH]; intros rs; simpl; [done|].
  etrans; [|apply IH]. rewrite length_bump. destruct (x <? 0)%Z; lia.
Qed.

Lemma length_foldl_bump_below rs l :
  Forall (λ x, x < Z.of_nat (length rs))%Z l →
  length (foldl bump rs l) = length rs.
Proof.
  revert rs. induction l as [|x l IH]; intros rs Hall; simpl; [done|].
  apply Forall_cons in Hall as [Hx Hall].
  assert (length (bump rs x) = length rs) as Hlen.
  { rewrite length_bump. destruct (Z.ltb_spec x 0); lia. }
  rewrite IH; [done|]. by rewrite Hlen.
Qed.

Lemma length_foldl_bump_beyond rs l :
  Exists (λ x, Z.of_nat (length rs) ≤ x)%Z l →
  length rs < length (foldl bump rs l).
Proof.
  revert rs. induction l as [|x l IH]; intros rs Hex; simpl;
    [by apply Exists_nil in Hex|].
  apply Exists_cons in Hex as [Hx|Hex].
  - eapply Nat.lt_le_trans; [|apply length_foldl_bump_le].
    rewrite length_bump. destruct (Z.ltb_spec x 0); lia.
  - destruct (decide (x < Z.of_nat (length rs))%Z) as [Hlt|Hge].
    + assert (length (bump rs x) = length rs) as Hlen.
      { rewrite length_bump. destruct (Z.ltb_spec x 0); lia. }
      rewrite <- Hlen. apply IH. by rewrite Hlen.
    + eapply Nat.lt_le_trans; [|apply length_foldl_bump_le].
      rewrite length_bump. destruct (Z.ltb_spec x 0); lia.
Qed.

(** A negative index changes nothing. *)
Lemma foldl_bump_nonnegative rs l :
  foldl bump rs l = foldl bump rs (filter (λ x, 0 ≤ x)%Z l).
Proof.
  revert rs. induction l as [|x l IH]; intros rs; [done|].
  rewrite filter_cons. case_decide; simpl.
  - apply IH.
  - unfold bump at 2. destruct (Z.ltb_spec x 0); [|lia]. apply IH.
Qed.






End results_array.

(** X5. The results array has one entry per option exactly when no vote of
    the poll has an index of [n] or more: when the store answers, the array
    that [getPollResults] returns for an existing poll with [n] options has
    length [n] if and only if every vote of the poll has an index below
    [n]; otherwise it is longer. *)
Theorem getPollResults_length (w : World) (poll : Poll) :
  store_ok w → outages w = [] → poll ∈ polls w →
  let rs := results (getPollResults (poll_id poll) w).1 in
  length (options poll) ≤ length rs ∧
  (length rs = length (options poll) ↔
   ∀ v, v ∈ votes w → vote_poll_id v = poll_id poll →
        (option_index v < Z.of_nat (length (options poll)))%Z).
Proof.
  intros Hok Hans Hin rs. subst rs.
  rewrite getPollResults_answered by done.
  rewrite (polls_with_one poll w) by done. simpl.
  set (n := length (options poll)).
  set (indices := option_index <$> votes_of (poll_id poll) (votes w)).
  assert (length (replicate n (Num 0)) = n) as Hzeros by apply length_replicate.
  split.
  - rewrite <- Hzeros at 1. apply length_foldl_bump_le.
  - split.
    + intros Hlen v Hv Hp.
      destruct (decide (option_index v < Z.of_nat n)%Z) as [|Hge]; [done|].
      exfalso.
      assert (length (replicate n (Num 0))
              < length (foldl bump (replicate n (Num 0)) indices)) as Hlt.
      { apply length_foldl_bump_beyond, Exists_exists.
        exists (option_index v). split; [|rewrite Hzeros; lia].
        apply list_elem_of_fmap_2. by apply list_elem_of_filter. }
      rewrite Hzeros, Hlen in Hlt. lia.
    + intros Hall. rewrite <- Hzeros at 2.
      apply length_foldl_bump_below. rewrite Hzeros.
      apply Forall_fmap, Forall_forall. intros v Hv.
      apply list_elem_of_filter in Hv as [Hp Hv]. simpl. by apply Hall.
Qed.

Lemma getPollResults_length_witness :
  let rs := results (getPollResults (poll_id Scenario.red_blue) Scenario.after_A).1 in
  length (options Scenario.red_blue) ≤ length rs ∧
  (length rs = length (options Scenario.red_blue) ↔
   ∀ v, v ∈ votes Scenario.after_A → vote_poll_id v = poll_id Scenario.red_blue →
        (option_index v < Z.of_nat (length (options Scenario.red_blue)))%Z).
Proof.
  apply (getPollResults_length Scenario.after_A Scenario.red_blue).
  - exact store_ok_after_A.
  - reflexivity.
  - left.
Defined.


(** X7. A vote with a negative index is never counted: when the store
    answers, the outcome of [getPollResults] is the one it would have
    without the votes whose index is negative. *)
Theorem getPollResults_negative (pollId : string) (w : World) :
  outages w = [] →
  (getPollResults pollId w).1
  = (getPollResults pollId
       (set_votes (filter (λ v, 0 ≤ option_index v)%Z (votes w)) w)).1.
Proof.
  intros Hans. rewrite !getPollResults_answered by done. simpl.
  destruct (polls_with pollId (polls w)) as [|poll [|poll' ps]]; try done.
  f_equal. rewrite foldl_bump_nonnegative. f_equal.
  unfold votes_of. generalize (votes w). intros vs.
  induction vs as [|a vs IH]; [done|].
  rewrite !filter_cons. repeat case_decide; csimpl;
    rewrite ?filter_cons; repeat case_decide; try done; try lia;
    by rewrite IH.
Qed.

Lemma getPollResults_negative_witness :
  (getPollResults "P" More.with_negative_vote).1
  = (getPollResults "P"
       (set_votes (filter (λ v, 0 ≤ option_index v)%Z (votes More.with_negative_vote))
                  More.with_negative_vote)).1.
Proof.
  apply (getPollResults_negative "P" More.with_negative_vote). reflexivity.
Defined.

Example results_with_negative_vote :
  filter (λ v, 0 ≤ option_index v)%Z (votes More.with_negative_vote)
    = [Scenario.vote_A] ∧
  (getPollResults "P" More.with_negative_vote).1
    = mkResults [Num 1; Num 0] None.
Proof. split; reflexivity. Qed.



Example results_with_stray_vote :
  (getPollResults "P" More.with_stray_vote).1
  = mkResults [Num 1; Num 0; Hole; NaN] None.
Proof. reflexivity. Qed.

(** ** deletePoll: what it removes and what it leaves *)

Lemma filter_twice {A} (P : A → Prop) `{∀ x, Decision (P x)} (l : list A) :
  filter P (filter P l) = filter P l.
Proof.
  induction l as [|a l IH]; [done|].
  rewrite filter_cons. case_decide; [|done].
  rewrite filter_cons_True by done. by rewrite IH.
Qed.

Lemma filter_excluded {A} (P Q : A → Prop)
    `{∀ x, Decision (P x)} `{∀ x, Decision (Q x)} (l : list A) :
  (∀ x, P x → ¬ Q x) → filter P (filter Q l) = [].
Proof.
  intros HPQ. induction l as [|a l IH]; [done|].
  rewrite filter_cons. case_decide as Ha; [|done].
  rewrite filter_cons_False; [done|]. intros HP. by apply HPQ in HP.
Qed.

(** X8. Whatever the store does and whoever asks, [deletePoll] never
    removes or changes a poll with another identifier, nor a vote of
    another poll. *)
Theorem deletePoll_other_polls (id userId : string) (w : World) :
  let w' := (deletePoll id userId w).2 in
  filter (λ p, poll_id p ≠ id) (polls w') = filter (λ p, poll_id p ≠ id) (polls w) ∧
  filter (λ v, vote_poll_id v ≠ id) (votes w')
  = filter (λ v, vote_poll_id v ≠ id) (votes w).
Proof.
  simpl. unfold deletePoll, bind.
  destruct (select_poll id w) as [rs w1] eqn:Hsel.
  apply select_poll_inv in Hsel as (Hp & Hv & _). rewrite <- Hp, <- Hv.
  destruct (data rs) as [poll|]; [|done].
  case_bool_decide; [done|].
  unfold delete_votes, delete_poll_row, bind, round_trip, ret.
  destruct w1 as [ps vs nid ck os cs pe us]. simpl.
  destruct os as [|[] [|[] rest]]; simpl; by rewrite ?filter_twice.
Qed.

(** X9. When the store answers, the creator's request removes the poll and
    every vote on it, queues one change event per vote removed, and reports
    success without error. *)
Theorem deletePoll_owner_removes (poll : Poll) (w : World) :
  store_ok w → outages w = [] → poll ∈ polls w →
  ∃ w',
    deletePoll (poll_id poll) (created_by poll) w = (mkDelete true None, w') ∧
    polls w' = filter (λ p, poll_id p ≠ poll_id poll) (polls w) ∧
    votes w' = filter (λ v, vote_poll_id v ≠ poll_id poll) (votes w) ∧
    pending w'
    = pending w ++ (vote_poll_id <$> votes_of (poll_id poll) (votes w)) ∧
    channels w' = channels w ∧ updates w' = updates w.
Proof.
  intros Hok Hans Hin. unfold deletePoll, bind.
  rewrite select_poll_answered, (polls_with_one poll w) by done. simpl.
  rewrite bool_decide_eq_false_2 by (intros Hne; by apply Hne).
  unfold delete_votes, delete_poll_row, bind, round_trip.
  destruct w as [ps vs nid ck os cs pe us]. simpl in *. subst os. simpl.
  eexists. split; [reflexivity|]. simpl. split_and!; try done.
  - by rewrite filter_twice.
  - unfold votes_of. rewrite filter_excluded; [by rewrite app_nil_r|].
    intros v Hv Hne. by apply Hne.
Qed.

Lemma deletePoll_owner_removes_witness :
  ∃ w',
    deletePoll (poll_id Scenario.red_blue) (created_by Scenario.red_blue) Scenario.live
    = (mkDelete true None, w') ∧
    polls w'
    = filter (λ p, poll_id p ≠ poll_id Scenario.red_blue) (polls Scenario.live) ∧
    votes w'
    = filter (λ v, vote_poll_id v ≠ poll_id Scenario.red_blue) (votes Scenario.live) ∧
    pending w'
    = pending Scenario.live
      ++ (vote_poll_id <$> votes_of (poll_id Scenario.red_blue) (votes Scenario.live)) ∧
    channels w' = channels Scenario.live ∧ updates w' = updates Scenario.live.
Proof.
  apply (deletePoll_owner_removes Scenario.red_blue Scenario.live).
  - split; compute_done.
  - reflexivity.
  - left.
Defined.

(** X10. The deletion is not atomic.  When the store answers the lookup and
    the deletion of the votes but loses the deletion of the poll, the
    creator is told [success: false] with the store's error, and yet every
    vote on the poll is gone while the poll itself is still there. *)
Theorem deletePoll_not_atomic (poll : Poll) (w : World) (rest : list bool) :
  store_ok w → outages w = false :: false :: true :: rest → poll ∈ polls w →
  ∃ w',
    deletePoll (poll_id poll) (created_by poll) w
    = (mkDelete false (Some (StoreError RequestFailed)), w') ∧
    polls w' = polls w ∧
    votes w' = filter (λ v, vote_poll_id v ≠ poll_id poll) (votes w) ∧
    outages w' = rest.
Proof.
  intros Hok Hans Hin. unfold deletePoll, select_poll, bind, round_trip.
  rewrite Hans. simpl. rewrite (polls_with_one poll w) by done. simpl.
  rewrite bool_decide_eq_false_2 by (intros Hne; by apply Hne).
  unfold delete_votes, delete_poll_row, bind, round_trip. simpl.
  eexists. split; [reflexivity|]. done.
Qed.

Lemma deletePoll_not_atomic_witness :
  ∃ w',
    deletePoll (poll_id Scenario.red_blue) (created_by Scenario.red_blue)
               More.live_then_lost
    = (mkDelete false (Some (StoreError RequestFailed)), w') ∧
    polls w' = polls More.live_then_lost ∧
    votes w'
    = filter (λ v, vote_poll_id v ≠ poll_id Scenario.red_blue)
             (votes More.live_then_lost) ∧
    outages w' = [].
Proof.
  apply (deletePoll_not_atomic Scenario.red_blue More.live_then_lost []).
  - split; compute_done.
  - reflexivity.
  - left.
Defined.

Lemma deletePoll_gone (id userId : string) (w : World)
    (r : DeleteResult) (w' : World) :
  deletePoll id userId w = (r, w') → success r = true →
  polls_with id (polls w') = [] ∧ votes_of id (votes w') = [] ∧
  ∀ u, votes_by id u (votes w') = [].
Proof.
  unfold deletePoll, bind.
  destruct (select_poll id w) as [rs w1] eqn:Hsel.
  destruct (data rs) as [poll|]; [|by intros [= <- <-]].
  case_bool_decide; [by intros [= <- <-]|].
  unfold delete_votes, delete_poll_row, bind, round_trip, ret.
  destruct w1 as [ps vs nid ck os cs pe us]. simpl.
  destruct os as [|[] [|[] rest]]; simpl; intros [= <- <-]; try done; intros _;
    simpl; rewrite ?filter_twice; unfold polls_with, votes_of, votes_by;
    split_and!; try intros u; apply filter_excluded; intros x Hx Hne;
    apply Hne; tauto.
Qed.

(** X11. After a deletion that reported success, and with the store
    answering, the poll is gone for every reader: its results are
    [PollNotFound], nobody has voted on it, and a submission on it is
    turned away with [PollNotFound] and writes nothing. *)
Theorem deletePoll_then_reads (id userId : string) (w : World)
    (r : DeleteResult) (w' : World) :
  deletePoll id userId w = (r, w') → success r = true → outages w' = [] →
  getPollResults id w' = (mkResults [] (Some PollNotFound), w') ∧
  (∀ u, hasUserVoted id u w' = (false, w')) ∧
  (∀ u i, submitVote id u i w' = (rejected PollNotFound, w')).
Proof.
  intros Hdel Hsucc Hans.
  destruct (deletePoll_gone _ _ _ _ _ Hdel Hsucc) as (Hpolls & _ & Hby).
  split_and!.
  - rewrite getPollResults_answered by done. by rewrite Hpolls.
  - intros u. rewrite hasUserVoted_answered by done. by rewrite Hby.
  - intros u i. rewrite submitVote_answered, submitVote_checks_answered by done.
    simpl. by rewrite Hby, Hpolls.
Qed.

Lemma deletePoll_then_reads_witness :
  getPollResults "P" Scenario.deleted
  = (mkResults [] (Some PollNotFound), Scenario.deleted) ∧
  (∀ u, hasUserVoted "P" u Scenario.deleted = (false, Scenario.deleted)) ∧
  (∀ u i, submitVote "P" u i Scenario.deleted
          = (rejected PollNotFound, Scenario.deleted)).
Proof.
  apply (deletePoll_then_reads "P" "owner" Scenario.live
           (mkDelete true None) Scenario.deleted).
  - reflexivity.
  - reflexivity.
  - reflexivity.
Defined.

(** ** The listeners of a poll's change events *)

Lemma getPollResults_same_tables (pollId : string) (w w2 : World) :
  outages w = [] → outages w2 = [] →
  polls w2 = polls w → votes w2 = votes w →
  (getPollResults pollId w2).1 = (getPollResults pollId w).1.
Proof.
  intros H1 H2 Hp Hv. rewrite !getPollResults_answered by done. simpl.
  by rewrite Hp, Hv.
Qed.

Lemma on_postgres_changes_answered (handle : nat) (pollId : string) (w : World) :
  outages w = [] →
  on_postgres_changes handle pollId w
  = ((), set_updates (updates w ++ [(handle, results (getPollResults pollId w).1)]) w).
Proof.
  intros Hans. unfold on_postgres_changes, bind, onUpdate.
  by rewrite getPollResults_answered.
Qed.

Lemma run_listeners_answered (pollId : string) (cs : list Channel) :
  ∀ handle w, outages w = [] →
    run_listeners handle cs pollId w
    = ((), set_updates
             (updates w
              ++ ((λ h, (h, results (getPollResults pollId w).1))
                    <$> listeners_from handle cs pollId))
             w).
Proof.
  induction cs as [|c cs IH]; intros handle w Hans.
  - simpl. unfold ret. destruct w. simpl. by rewrite app_nil_r.
  - cbn [run_listeners listeners_from]. unfold bind.
    destruct (joined c && bool_decide (watched_poll c = pollId)) eqn:Hc.
    + apply andb_true_iff in Hc as [_ Hp]. apply bool_decide_eq_true in Hp.
      rewrite Hp, on_postgres_changes_answered by done.
      rewrite IH by done.
      rewrite (getPollResults_same_tables pollId w (set_updates _ w)) by done.
      f_equal. destruct w. unfold set_updates. simpl. f_equal.
      by rewrite <- app_assoc.
    + unfold ret. by rewrite IH.
Qed.

(** X12. Subscriptions are served one by one, without sharing.  When the
    store answers, the delivery of a change event of a poll calls the
    callback of every joined channel that watches that poll exactly once,
    in the order of the handles, each time with the results that
    [getPollResults] gives for the poll; channels of other polls and
    channels that were left are not called, and neither table changes. *)
Theorem deliver_notifies (pollId : string) (rest : list string) (w : World) :
  outages w = [] → pending w = pollId :: rest →
  ∃ w',
    deliver w = ((), w') ∧
    updates w'
    = updates w
      ++ ((λ h, (h, results (getPollResults pollId w).1))
            <$> listeners_from 0 (channels w) pollId) ∧
    pending w' = rest ∧ channels w' = channels w ∧
    polls w' = polls w ∧ votes w' = votes w.
Proof.
  intros Hans Hpend. unfold deliver. rewrite Hpend.
  rewrite run_listeners_answered by done.
  rewrite (getPollResults_same_tables pollId w (set_pending _ w)) by done.
  eexists. split; [reflexivity|]. done.
Qed.

Lemma deliver_notifies_witness :
  ∃ w',
    deliver Scenario.deleted = ((), w') ∧
    updates w'
    = updates Scenario.deleted
      ++ ((λ h, (h, results (getPollResults "P" Scenario.deleted).1))
            <$> listeners_from 0 (channels Scenario.deleted) "P") ∧
    pending w' = [] ∧ channels w' = channels Scenario.deleted ∧
    polls w' = polls Scenario.deleted ∧ votes w' = votes Scenario.deleted.
Proof.
  apply (deliver_notifies "P" [] Scenario.deleted).
  - reflexivity.
  - reflexivity.
Defined.





(** ** createPoll and getPollById *)

Section create_poll.
Import Polls.

Lemma trimStart_empty (s : string) : trimStart s = EmptyString ↔ blank s.
Proof.
  unfold blank. induction s as [|c s IH]; simpl.
  - split; [constructor|done].
  - destruct (is_white_space c) eqn:Hc.
    + rewrite IH. split; [by constructor|]. by intros [_ ?]%Forall_cons.
    + split; [done|]. intros [? _]%Forall_cons. congruence.
Qed.

Lemma trimEnd_empty (s : string) : trimEnd s = EmptyString ↔ blank s.
Proof.
  unfold blank. induction s as [|c s IH]; simpl.
  - split; [constructor|done].
  - destruct (trimEnd s) as [|k ks] eqn:Hs.
    + destruct (is_white_space c) eqn:Hc.
      * split; [|done]. intros _. constructor; [done|]. by apply IH.
      * split; [done|]. intros [? _]%Forall_cons. congruence.
    + split; [done|]. intros [_ Hall]%Forall_cons. by apply IH in Hall.
Qed.

Lemma trimStart_blank (s : string) : blank (trimStart s) → blank s.
Proof.
  unfold blank. induction s as [|c s IH]; simpl; [done|].
  destruct (is_white_space c) eqn:Hc; [|done].
  intros Hall. constructor; [done|]. by apply IH.
Qed.

(** [!question.trim()] holds exactly for the questions made of white space
    only, the empty one among them. *)
Lemma falsy_trim (s : string) : falsy (trim s) = true ↔ blank s.
Proof.
  unfold trim. destruct (trimEnd (trimStart s)) as [|c k] eqn:Ht; simpl.
  - split; [|done]. intros _. apply trimEnd_empty in Ht.
    by apply trimStart_blank.
  - split; [done|]. intros Hb. apply trimStart_empty in Hb.
    rewrite Hb in Ht. done.
Qed.

(** X15. [createPoll] turns bad input away before it contacts the store:
    a question made of white space only (the empty question included)
    throws 'Question cannot be empty' whatever the options are, and any
    other question with fewer than 2 options throws 'Poll must have at
    least 2 options'.  In both cases the world is exactly as it was. *)
Theorem createPoll_throws (uuid new_question : string) (new_options : list string)
    (creator : string) (expiry : option Z) (public : option bool) (w : World) :
  (blank new_question →
     createPoll uuid new_question new_options creator expiry public w
     = (Throws (JsError "Question cannot be empty"), w)) ∧
  (¬ blank new_question → length new_options < 2 →
     createPoll uuid new_question new_options creator expiry public w
     = (Throws (JsError "Poll must have at least 2 options"), w)).
Proof.
  unfold createPoll. split.
  - intros Hb. apply falsy_trim in Hb. by rewrite Hb.
  - intros Hb Hlen. destruct (falsy (trim new_question)) eqn:Hf;
      [by apply falsy_trim in Hf|].
    destruct (Nat.ltb_spec (length new_options) 2); [done|lia].
Qed.

Lemma createPoll_throws_witness :
  createPoll "R" "   " ["Yes"; "No"] "owner" None None Scenario.fresh
  = (Throws (JsError "Question cannot be empty"), Scenario.fresh) ∧
  createPoll "R" "Yes?" ["Yes"] "owner" None None Scenario.fresh
  = (Throws (JsError "Poll must have at least 2 options"), Scenario.fresh).
Proof.
  split.
  - apply (proj1 (createPoll_throws "R" "   " ["Yes"; "No"] "owner" None None
                    Scenario.fresh)).
    repeat constructor.
  - apply (proj2 (createPoll_throws "R" "Yes?" ["Yes"] "owner" None None
                    Scenario.fresh)).
    + intros Hb. apply Forall_cons in Hb as [Hc _]. discriminate Hc.
    + simpl. lia.
Defined.

Lemma insert_poll_inv (uuid new_question : string) (new_options : list string)
    (creator : string) (expiry : option Z) (public : bool) (w : World) :
  ∀ r w', insert_poll uuid new_question new_options creator expiry public w
          = (r, w') →
    votes w' = votes w ∧ channels w' = channels w ∧ pending w' = pending w ∧
    updates w' = updates w ∧
    match data r with
    | Some row =>
        error r = None ∧ polls_with uuid (polls w) = [] ∧
        polls w' = polls w ++ [row] ∧
        row = mkPoll uuid (clock w) new_question new_options creator expiry public
    | None => is_Some (error r) ∧ polls w' = polls w
    end.
Proof.
  intros r w'. unfold insert_poll, bind, round_trip, ret.
  destruct (outages w) as [|[] rest]; simpl;
    destruct (polls_with uuid (polls w)) as [|p ps] eqn:Hp;
    intros [= <- <-]; simpl; rewrite ?Hp; by eauto 10.
Qed.

(** X16. A poll that [createPoll] hands back is stored as it was given.
    When the store answers and draws an identifier that no poll has, a
    question that is not blank with at least 2 options is stored under
    that identifier with the question and the options untouched (no
    trimming), the creator, the expiration, [is_public] as given or
    [true] when left out, and the store's clock as creation time; the row
    is added at the end of the polls table, the votes are not touched, the
    keys of the schema still hold, and [getPollById] on the new identifier
    gives the same row back. *)
Theorem createPoll_stores (uuid new_question : string) (new_options : list string)
    (creator : string) (expiry : option Z) (public : option bool) (w : World) :
  store_ok w → outages w = [] → (∀ p, p ∈ polls w → poll_id p ≠ uuid) →
  ¬ blank new_question → 2 ≤ length new_options →
  let row := mkPoll uuid (clock w) new_question new_options creator expiry
                    (default true public) in
  ∃ w',
    createPoll uuid new_question new_options creator expiry public w
    = (Resolves (mkPollResult (Some row) None), w') ∧
    polls w' = polls w ++ [row] ∧ votes w' = votes w ∧ store_ok w' ∧
    getPollById uuid w' = (mkPollResult (Some row) None, w').
Proof.
  intros Hok Hans Hfresh Hb Hlen row. unfold createPoll.
  destruct (falsy (trim new_question)) eqn:Hf; [by apply falsy_trim in Hf|].
  destruct (Nat.ltb_spec (length new_options) 2); [lia|].
  apply polls_with_none in Hfresh.
  unfold insert_poll, bind. rewrite round_trip_answered by done.
  rewrite Hfresh. fold row. simpl. eexists. split; [reflexivity|]. simpl.
  assert (store_ok (set_polls (polls w ++ [row]) w)) as Hok'.
  { destruct Hok as [Hpk Huniq]. split; [|done]. simpl.
    rewrite fmap_app. apply NoDup_app. split_and!; [done| |apply NoDup_singleton].
    intros k Hk Hrow. apply list_elem_of_singleton in Hrow. subst k.
    apply list_elem_of_fmap in Hk as (p & Hid & Hp).
    by apply (proj2 (polls_with_none uuid w) Hfresh p). }
  split_and!; try done.
  unfold getPollById, bind. rewrite select_poll_answered by done.
  pose proof (polls_with_one row (set_polls (polls w ++ [row]) w) Hok') as Hone.
  cbn [polls set_polls] in Hone |- *. change (poll_id row) with uuid in Hone.
  rewrite Hone; [done|]. apply elem_of_app. right. by left.
Qed.

Lemma createPoll_stores_witness :
  let row := mkPoll "R" 100 " Tea? " ["Yes"; "No"] "owner" None true in
  ∃ w',
    createPoll "R" " Tea? " ["Yes"; "No"] "owner" None None Scenario.fresh
    = (Resolves (mkPollResult (Some row) None), w') ∧
    polls w' = polls Scenario.fresh ++ [row] ∧ votes w' = votes Scenario.fresh ∧
    store_ok w' ∧
    getPollById "R" w' = (mkPollResult (Some row) None, w').
Proof.
  apply (createPoll_stores "R" " Tea? " ["Yes"; "No"] "owner" None None Scenario.fresh).
  - exact store_ok_fresh.
  - reflexivity.
  - intros p Hp Hid.
    apply elem_of_cons in Hp as [->|Hp]; [discriminate|].
    apply list_elem_of_singleton in Hp. subst p. discriminate Hid.
  - intros Hb. apply Forall_cons in Hb as [_ Hb].
    apply Forall_cons in Hb as [Hc _]. discriminate Hc.
  - simpl. lia.
Defined.

(** X17. Whatever the store does, [createPoll] either throws and leaves the
    world as it was, or resolves to a poll or to an error, never to both
    and never to neither.  With a poll, the polls table has grown by
    exactly that row; with an error, it is as it was.  Rows that were
    there stay, and the votes table is never touched. *)
Theorem createPoll_outcome (uuid new_question : string) (new_options : list string)
    (creator : string) (expiry : option Z) (public : option bool) (w : World) :
  let w' := (createPoll uuid new_question new_options creator expiry public w).2 in
  votes w' = votes w ∧
  match (createPoll uuid new_question new_options creator expiry public w).1 with
  | Throws _ => w' = w
  | Resolves r =>
      (∃ row, poll r = Some row ∧ poll_error r = None ∧
              polls w' = polls w ++ [row] ∧ poll_id row = uuid)
      ∨ (poll r = None ∧ is_Some (poll_error r) ∧ polls w' = polls w)
  end.
Proof.
  simpl. unfold createPoll.
  destruct (falsy (trim new_question)); [done|].
  destruct (length new_options <? 2)%nat; [done|].
  unfold bind, ret.
  destruct (insert_poll uuid new_question new_options creator expiry
                        (default true public) w) as [r w1] eqn:Hins.
  apply insert_poll_inv in Hins as (Hv & _ & _ & _ & Hdata). simpl.
  split; [done|].
  destruct (data r) as [row|].
  - left. exists row. destruct Hdata as (-> & _ & Hp & ->). by split_and!.
  - right. destruct Hdata as [[e ->] Hp]. split_and!; [done|by eexists|done].
Qed.
End create_poll.

(** ** signUp *)

Lemma includes_has_at_sign (email : string) :
  Auth.includes Auth.at_sign email = true ↔ Auth.has_at_sign email.
Proof.
  unfold Auth.has_at_sign. induction email as [|c email IH]; simpl.
  - split; [done|]. intros ([|? ?] & after & Heq); discriminate Heq.
  - rewrite orb_true_iff, bool_decide_eq_true, IH. split.
    + intros [->|(before & after & ->)].
      * by exists EmptyString, email.
      * by exists (String c before), after.
    + intros ([|c' before] & after & Heq); cbn [String.append] in Heq.
      * left. by injection Heq.
      * right. exists before, after. by injection Heq.
Qed.

(** X18. [signUp] checks the address before the password and asks the
    provider only when both pass: an address without an at sign throws
    'Invalid email format' whatever the password is; an address with one
    and a password shorter than 8 characters throws the password error; in
    every other case, and only then, the provider's answer for this
    address and password is what comes back. *)
Theorem signUp_checks (provider : string → string → Auth.AuthResponse)
    (email password : string) :
  (¬ Auth.has_at_sign email →
     Auth.signUp provider email password
     = Polls.Throws (JsError "Invalid email format")) ∧
  (Auth.has_at_sign email → String.length password < 8 →
     Auth.signUp provider email password
     = Polls.Throws (JsError "Password must be at least 8 characters long")) ∧
  (Auth.has_at_sign email → 8 ≤ String.length password →
     Auth.signUp provider email password
     = Polls.Resolves
         (Auth.mkSignUp (Auth.data_user (provider email password))
                        (Auth.auth_error (provider email password)))).
Proof.
  unfold Auth.signUp.
  destruct (Auth.includes Auth.at_sign email) eqn:Hat; simpl.
  - apply includes_has_at_sign in Hat. split_and!; [done| |].
    + intros _ Hlen. by destruct (Nat.ltb_spec (String.length password) 8); [|lia].
    + intros _ Hlen. by destruct (Nat.ltb_spec (String.length password) 8); [lia|].
  - assert (¬ Auth.has_at_sign email) as Hno.
    { intros Hyes. apply includes_has_at_sign in Hyes. congruence. }
    by split_and!.
Qed.

Lemma signUp_checks_witness :
  Auth.signUp (λ _ _, Auth.mkAuth (Some "u1") None) "a@b.c" "short"
  = Polls.Throws (JsError "Password must be at least 8 characters long").
Proof.
  apply (proj1 (proj2 (signUp_checks (λ _ _, Auth.mkAuth (Some "u1") None)
                         "a@b.c" "short"))).
  - exists "a", "b.c". reflexivity.
  - vm_compute. lia.
Defined.

(** ** The form and the endpoint *)

Lemma sent_body_options (os : list Route.OptionData) :
  Forall2 Route.option_with_text
    ((λ o, Route.JObject [("text", Route.JString (Route.text o))]) <$> os)
    (Route.text <$> os)
  ↔ Forall (λ o, 1 ≤ String.length (Route.text o)) os.
Proof.
  induction os as [|o os IH]; csimpl.
  - split; constructor.
  - split.
    + intros Hall. apply Forall2_cons in Hall as [(ms & [= <-] & _ & Hlen) Hall].
      constructor; [done|]. by apply IH.
    + intros [Ho Hall]%Forall_cons. constructor; [|by apply IH].
      by eexists.
Qed.

Lemma sent_body_texts (sent parsed : list Route.OptionData) :
  Forall2 Route.option_with_text
    ((λ o, Route.JObject [("text", Route.JString (Route.text o))]) <$> sent)
    (Route.text <$> parsed)
  → parsed = sent.
Proof.
  revert parsed. induction sent as [|o sent IH]; intros [|o' parsed] Hall;
    csimpl in Hall.
  - done.
  - inversion Hall.
  - inversion Hall.
  - apply Forall2_cons in Hall as [(ms & Hobj & Ht & _) Hall].
    injection Hobj as <-. cbn in Ht. injection Ht as Ht.
    destruct o, o'. simpl in *. subst. f_equal. by apply IH.
Qed.

Lemma forallb_texts (os : list Route.OptionData) :
  forallb (λ o, (1 <=? String.length (Route.text o))%nat) os = true
  ↔ Forall (λ o, 1 ≤ String.length (Route.text o)) os.
Proof.
  induction os as [|o os IH]; cbn [forallb]; [by split; [constructor|]|].
  rewrite andb_true_iff, Nat.leb_le, IH. split.
  - intros [? ?]. by constructor.
  - by intros [? ?]%Forall_cons.
Qed.

(** X19. The form and the endpoint apply the same schema.  For the values
    of the form, sent as [onSubmit] sends them, the endpoint answers 201
    exactly when [pollFormSchema] accepts the values, and then the data it
    returns are the values themselves; when the schema of the form does
    not accept them the endpoint answers 400.  Values the form lets
    through are therefore never turned away by the endpoint. *)
Theorem form_and_endpoint_agree (values : Route.PollData) (w : World) :
  (Form.pollFormSchema_accepts values = true ↔
   Route.POST (Route.JsonBody (Form.sent_body values)) w
   = (Route.mkHttp 201 (Route.Created "Poll created successfully" values), w)) ∧
  (Form.pollFormSchema_accepts values = false →
   Route.status (Route.POST (Route.JsonBody (Form.sent_body values)) w).1 = 400).
Proof.
  assert (Form.pollFormSchema_accepts values = true
          ↔ Route.pollSchema_parse (Form.sent_body values) = Route.Valid values)
    as Hiff.
  { rewrite pollSchema_parse_valid. unfold Form.pollFormSchema_accepts.
    rewrite !andb_true_iff, !Nat.leb_le, forallb_texts.
    rewrite <- sent_body_options. unfold Route.meets_schema, Form.sent_body.
    split.
    - intros [[Hq Hn] Hall]. eexists _, _. split; [reflexivity|].
      split_and!; try done. by rewrite length_fmap.
    - intros (ms & items & Hbody & Hq & Hqlen & Ho & Hn & Hall).
      injection Hbody as <-. cbn in Ho. injection Ho as <-.
      rewrite length_fmap in Hn. done. }
  unfold Route.POST, ret. split.
  - rewrite Hiff. destruct (Route.pollSchema_parse (Form.sent_body values));
      split; congruence.
  - intros Hno.
    destruct (Route.pollSchema_parse (Form.sent_body values)) as [v|] eqn:Hp;
      [|done].
    assert (v = values) as ->.
    { apply pollSchema_parse_valid in Hp.
      destruct Hp as (ms & items & Hbody & Hq & _ & Ho & _ & Hall).
      injection Hbody as <-. cbn in Hq, Ho.
      injection Hq as Hq. injection Ho as <-.
      apply sent_body_texts in Hall.
      destruct v as [q os], values as [q' os']. simpl in *. congruence. }
    rewrite (proj2 Hiff eq_refl) in Hno. done.
Qed.

(** ** The dashboard's delete button *)

(** X20. The dashboard drops a poll from its list only when the store has
    dropped it.  Whatever the store does, after [handleDeletePoll] either
    the list is as it was, or it is the list without the polls of that
    identifier and then neither the poll nor a vote on it is left in the
    store.  The message 'Failed to delete poll' is set only with the list
    unchanged, and without a signed-in user nothing happens at all. *)
Theorem handleDeletePoll_in_step (pollId : string) (st : Dashboard.State)
    (w : World) :
  let st' := (Dashboard.handleDeletePoll pollId st w).1 in
  let w' := (Dashboard.handleDeletePoll pollId st w).2 in
  Dashboard.user st' = Dashboard.user st ∧
  ((Dashboard.shown st' = Dashboard.shown st ∧
    (Dashboard.failure st' = Dashboard.failure st ∨
     Dashboard.failure st' = Some "Failed to delete poll"))
   ∨ (Dashboard.shown st'
      = filter (λ p, poll_id (Dashboard.row p) ≠ pollId) (Dashboard.shown st) ∧
      Dashboard.failure st' = Dashboard.failure st ∧
      (∀ p, p ∈ polls w' → poll_id p ≠ pollId) ∧
      (∀ v, v ∈ votes w' → vote_poll_id v ≠ pollId))) ∧
  (Dashboard.user st = None ∨ Dashboard.user st = Some EmptyString →
   st' = st ∧ w' = w).
Proof.
  simpl. unfold Dashboard.handleDeletePoll.
  destruct (Dashboard.user st) as [[|c u]|] eqn:Hu; simpl;
    try (split_and!; [done|left; by eauto|done]).
  unfold bind.
  destruct (deletePoll pollId (String c u) w) as [r w1] eqn:Hdel.
  destruct (delete_error r) as [e|] eqn:He; simpl.
  - split_and!; [done|left; by eauto|by intros [|]].
  - destruct (success r) eqn:Hs; simpl.
    + destruct (deletePoll_gone _ _ _ _ _ Hdel Hs) as (Hp & Hv & _).
      split_and!; [done| |by intros [|]]. right. split_and!; try done.
      * by apply polls_with_none.
      * intros v Hin Hid.
        assert (v ∈ votes_of pollId (votes w1)) as Hin'
          by (by apply list_elem_of_filter).
        rewrite Hv in Hin'. by apply elem_of_nil in Hin'.
    + split_and!; [done|left; by eauto|by intros [|]].
Qed.

Lemma form_and_endpoint_agree_witness :
  Route.POST
    (Route.JsonBody
       (Form.sent_body
          (Route.mkPollData "Tea or coffee?"
             [Route.mkOption "Tea"; Route.mkOption "Coffee"])))
    Scenario.fresh
  = (Route.mkHttp 201
       (Route.Created "Poll created successfully"
          (Route.mkPollData "Tea or coffee?"
             [Route.mkOption "Tea"; Route.mkOption "Coffee"])),
     Scenario.fresh).
Proof.
  apply (proj1 (proj1 (form_and_endpoint_agree
                         (Route.mkPollData "Tea or coffee?"
                            [Route.mkOption "Tea"; Route.mkOption "Coffee"])
                         Scenario.fresh))).
  reflexivity.
Defined.

Lemma handleDeletePoll_in_step_witness :
  (Dashboard.handleDeletePoll "P"
     (Dashboard.mkState [Dashboard.mkShown Scenario.red_blue None] None None)
     Scenario.live).1
  = Dashboard.mkState [Dashboard.mkShown Scenario.red_blue None] None None ∧
  (Dashboard.handleDeletePoll "P"
     (Dashboard.mkState [Dashboard.mkShown Scenario.red_blue None] None None)
     Scenario.live).2
  = Scenario.live.
Proof.
  apply (proj2 (proj2 (handleDeletePoll_in_step "P"
                         (Dashboard.mkState
                            [Dashboard.mkShown Scenario.red_blue None] None None)
                         Scenario.live))).
  left. reflexivity.
Defined.

Example handleDeletePoll_by_owner :
  Dashboard.handleDeletePoll "P"
    (Dashboard.mkState
       [Dashboard.mkShown Scenario.red_blue (Some [Num 1; Num 0]);
        Dashboard.mkShown Scenario.closed_poll None] None (Some "owner"))
    Scenario.live
  = (Dashboard.mkState [Dashboard.mkShown Scenario.closed_poll None] None
                       (Some "owner"),
     Scenario.deleted).
Proof. reflexivity. Qed.

(** ** One vote per voter and poll, whatever is called *)

Lemma store_ok_same_tables (w w' : World) :
  polls w' = polls w → votes w' = votes w → store_ok w → store_ok w'.
Proof. unfold store_ok. by intros -> ->. Qed.

Lemma run_listeners_tables (pollId : string) (cs : list Channel) :
  ∀ handle w,
    polls (run_listeners handle cs pollId w).2 = polls w ∧
    votes (run_listeners handle cs pollId w).2 = votes w.
Proof.
  induction cs as [|c cs IH]; intros handle w; cbn [run_listeners]; [done|].
  unfold bind.
  destruct (joined c && bool_decide (watched_poll c = pollId)).
  - unfold on_postgres_changes, bind, onUpdate.
    destruct (getPollResults (watched_poll c) w) as [r w1] eqn:Hget.
    apply getPollResults_inv in Hget as [Hw1 _].
    match goal with
    | |- context [run_listeners _ _ _ ?w2] =>
        destruct (IH (S handle) w2) as [Hp Hv]
    end.
    rewrite Hp, Hv, Hw1. done.
  - unfold ret. apply IH.
Qed.

Lemma createPoll_store_ok (uuid new_question : string) (new_options : list string)
    (creator : string) (expiry : option Z) (public : option bool) (w : World) :
  store_ok w →
  store_ok (Polls.createPoll uuid new_question new_options creator expiry public w).2.
Proof.
  intros Hok. unfold Polls.createPoll.
  destruct (Polls.falsy (Polls.trim new_question)); [done|].
  destruct (length new_options <? 2)%nat; [done|].
  unfold bind, ret.
  destruct (Polls.insert_poll uuid new_question new_options creator expiry
                              (default true public) w) as [r w1] eqn:Hins.
  apply insert_poll_inv in Hins as (Hv & _ & _ & _ & Hdata). simpl.
  destruct (data r) as [row|].
  - destruct Hdata as (_ & Hfresh & Hp & ->).
    destruct Hok as [Hpk Huniq]. split; [|by rewrite Hv].
    rewrite Hp, fmap_app. apply NoDup_app.
    split_and!; [done| |apply NoDup_singleton].
    intros k Hk Hrow. apply list_elem_of_singleton in Hrow. subst k.
    apply list_elem_of_fmap in Hk as (p & Hid & Hin).
    by apply (proj2 (polls_with_none uuid w) Hfresh p).
  - destruct Hdata as [_ Hp]. by apply (store_ok_same_tables w).
Qed.

Lemma run_store_ok (c : Service.Call) (w : World) :
  store_ok w → store_ok (Service.run c w).
Proof.
  intros Hok. destruct c; simpl.
  - destruct (submitVote pollId userId optionIndex w) as [r w'] eqn:Hsub.
    by eapply submitVote_store_ok.
  - destruct (hasUserVoted pollId userId w) as [b w'] eqn:Hv.
    apply hasUserVoted_inv in Hv as (Hp & Hvs & _).
    by apply (store_ok_same_tables w).
  - destruct (getPollResults pollId w) as [r w'] eqn:Hget.
    apply getPollResults_inv in Hget as [Hw _]. rewrite Hw.
    by apply (store_ok_same_tables w).
  - done.
  - done.
  - unfold deliver. destruct (pending w) as [|p rest]; [done|].
    destruct (run_listeners_tables p (channels w) 0 (set_pending rest w))
      as [Hp Hv].
    by apply (store_ok_same_tables w).
  - by apply createPoll_store_ok.
  - unfold Polls.getPollById, bind, ret.
    destruct (select_poll id w) as [r w'] eqn:Hsel.
    apply select_poll_inv in Hsel as (Hp & Hv & _).
    by apply (store_ok_same_tables w).
  - destruct (deletePoll id userId w) as [r w'] eqn:Hdel.
    by eapply deletePoll_store_ok.
Qed.

(** X21. No sequence of calls leaves two votes of one voter on one poll.
    From a store that satisfies the keys of the schema, after any sequence
    of calls of the service and deliveries of change events, under any
    pattern of lost requests, the keys still hold: no two polls share an
    identifier, and for every poll and voter at most one vote record
    exists. *)
Theorem one_vote_per_voter (calls : list Service.Call) (w : World) :
  store_ok w →
  store_ok (Service.after calls w) ∧
  ∀ pollId userId,
    length (votes_by pollId userId (votes (Service.after calls w))) ≤ 1.
Proof.
  intros Hok.
  assert (store_ok (Service.after calls w)) as Hafter.
  { unfold Service.after. revert w Hok.
    induction calls as [|c calls IH]; intros w Hok; simpl; [done|].
    by apply IH, run_store_ok. }
  split; [done|]. intros pollId userId.
  destruct (votes_by pollId userId (votes (Service.after calls w)))
    as [|v l] eqn:Hby; simpl; [lia|].
  destruct (votes_by_one pollId userId (Service.after calls w) Hafter)
    as [v' Hone].
  - exists v. assert (v ∈ votes_by pollId userId (votes (Service.after calls w)))
      as Hin by (rewrite Hby; by left).
    apply list_elem_of_filter in Hin. tauto.
  - rewrite Hone in Hby. injection Hby as _ <-. simpl. lia.
Qed.

Lemma one_vote_per_voter_witness :
  store_ok
    (Service.after
       [Service.SubmitVote "P" "A" 0; Service.SubmitVote "P" "A" 1;
        Service.Deliver; Service.DeletePoll "Q" "owner"]
       Scenario.fresh) ∧
  ∀ pollId userId,
    length
      (votes_by pollId userId
         (votes
            (Service.after
               [Service.SubmitVote "P" "A" 0; Service.SubmitVote "P" "A" 1;
                Service.Deliver; Service.DeletePoll "Q" "owner"]
               Scenario.fresh))) ≤ 1.
Proof.
  apply (one_vote_per_voter
           [Service.SubmitVote "P" "A" 0; Service.SubmitVote "P" "A" 1;
            Service.Deliver; Service.DeletePoll "Q" "owner"]
           Scenario.fresh).
  exact store_ok_fresh.
Defined.

(** ** getPolls *)

Section listing.
Import Listing.

#[local] Instance newer_first_total : Total newer_first.
Proof. intros p q. unfold newer_first. lia. Qed.

#[local] Instance newer_first_trans : Transitive newer_first.
Proof. intros p q r. unfold newer_first. lia. Qed.

Lemma selected_true (user_id : option string) (public_only : bool) (p : Poll) :
  selected user_id public_only p = true ↔
  (∀ u, user_id = Some u → u ≠ EmptyString → created_by p = u) ∧
  (public_only = true → is_public p = true).
Proof.
  unfold selected. rewrite andb_true_iff, orb_true_iff, negb_true_iff.
  split.
  - intros [Hu Hpub]. split.
    + intros u -> Hne. rewrite orb_true_iff, bool_decide_eq_true in Hu.
      destruct Hu as [Hf|]; [|done]. by destruct u.
    + intros ->. by destruct Hpub.
  - intros [Hu Hpub]. split.
    + destruct user_id as [u|]; [|done].
      rewrite orb_true_iff, bool_decide_eq_true.
      destruct u as [|c u]; [by left|]. right. by apply Hu.
    + destruct public_only; [right; by apply Hpub|by left].
Qed.

(** X22. A page of [getPolls] holds what it should.  When the store
    answers, for a page number and a page size of at least 1, and a page
    that is the first one or starts before the end of the listing, the
    result is a list without error of at most [limit] polls; each of them
    is a row of the polls table, was created by the user when a user
    identifier other than the empty string is given, and is public when
    [public_only] is set; they stand newest first; and they are the rows at
    the positions [(page - 1) * limit] onwards of the whole listing. *)
Theorem getPolls_page (unsatisfiable : Response (list Poll))
    (user_id : option string) (public_only : bool) (page limit : Z) (w : World) :
  outages w = [] → (1 ≤ page)%Z → (1 ≤ limit)%Z →
  let all := sorting.merge_sort newer_first
               (filter (λ p, selected user_id public_only p = true) (polls w)) in
  (page = 1%Z ∨ ((page - 1) * limit < Z.of_nat (length all))%Z) →
  ∃ rows,
    getPolls unsatisfiable user_id (Some public_only) (Some page) (Some limit) w
    = (mkPollsResult (Some rows) None, w) ∧
    rows = take (Z.to_nat limit) (drop (Z.to_nat ((page - 1) * limit)) all) ∧
    length rows ≤ Z.to_nat limit ∧
    (∀ p, p ∈ rows →
       p ∈ polls w ∧
       (∀ u, user_id = Some u → u ≠ EmptyString → created_by p = u) ∧
       (public_only = true → is_public p = true)) ∧
    Sorted.StronglySorted newer_first rows.
Proof.
  intros Hans Hpage Hlimit all Hstart.
  exists (take (Z.to_nat limit) (drop (Z.to_nat ((page - 1) * limit)) all)).
  split_and!.
  - unfold getPolls, select_polls, bind. rewrite round_trip_answered by done.
    simpl. fold all.
    assert ((0 <=? (page - 1) * limit)%Z
            && ((page - 1) * limit <=? page * limit - 1)%Z
            && (((page - 1) * limit =? 0)%Z
                || ((page - 1) * limit <? Z.of_nat (length all))%Z) = true) as ->.
    { rewrite !andb_true_iff, orb_true_iff, !Z.leb_le, Z.eqb_eq, Z.ltb_lt.
      split_and!; [nia|nia|]. destruct Hstart as [->|]; [left; lia|by right]. }
    replace (page * limit - 1 - (page - 1) * limit + 1)%Z with limit by lia.
    done.
  - done.
  - rewrite length_take. lia.
  - intros p Hp.
    apply subseteq_take, subseteq_drop in Hp. unfold all in Hp.
    rewrite sorting.merge_sort_Permutation in Hp.
    apply list_elem_of_filter in Hp as [Hsel Hin].
    apply selected_true in Hsel. tauto.
  - pose proof (sorting.StronglySorted_merge_sort newer_first
                  (filter (λ p, selected user_id public_only p = true) (polls w)))
      as Hsorted. fold all in Hsorted.
    rewrite <- (take_drop (Z.to_nat ((page - 1) * limit)) all) in Hsorted.
    apply sorting.StronglySorted_app_1_r in Hsorted.
    rewrite <- (take_drop (Z.to_nat limit)
                  (drop (Z.to_nat ((page - 1) * limit)) all)) in Hsorted.
    by apply sorting.StronglySorted_app_1_l in Hsorted.
Qed.

Lemma getPolls_page_witness :
  let all := sorting.merge_sort newer_first
               (filter (λ p, selected (Some "owner") false p = true)
                       (polls Scenario.fresh)) in
  ∃ rows,
    getPolls (failed RequestFailed) (Some "owner") (Some false) (Some 1%Z)
             (Some 10%Z) Scenario.fresh
    = (mkPollsResult (Some rows) None, Scenario.fresh) ∧
    rows = take (Z.to_nat 10) (drop (Z.to_nat ((1 - 1) * 10)) all) ∧
    length rows ≤ Z.to_nat 10 ∧
    (∀ p, p ∈ rows →
       p ∈ polls Scenario.fresh ∧
       (∀ u, Some "owner" = Some u → u ≠ EmptyString → created_by p = u) ∧
       (false = true → is_public p = true)) ∧
    Sorted.StronglySorted newer_first rows.
Proof.
  apply (getPolls_page (failed RequestFailed) (Some "owner") false 1 10
           Scenario.fresh).
  - reflexivity.
  - lia.
  - lia.
  - left. reflexivity.
Defined.

End listing.

(** ** The endpoint's validation errors *)

Section endpoint_errors.
Import Route.

Lemma parse_option_bad (at_path : list PathPart) (item : Json) :
  (∀ t, ¬ option_with_text item t) →
  ∃ issue, parse_option at_path (Some item) = Invalid [issue] ∧
           (path issue = at_path ∨ path issue = at_path ++ [Key "text"]).
Proof.
  intros Hbad. unfold parse_option.
  destruct item as [| | | | |members]; try (eexists; split; [reflexivity|by left]).
  unfold parse_string_min.
  destruct (member "text" members) as [[| | |s| |]|] eqn:Hm;
    try (eexists; split; [reflexivity|by right]).
  destruct (Nat.leb_spec 1 (String.length s)).
  - destruct (Hbad s). by exists members.
  - eexists; split; [reflexivity|by right].
Qed.

Lemma parse_items_bad (at_path : list PathPart) (items : list Json) :
  ∀ start i item,
    items !! i = Some item → (∀ t, ¬ option_with_text item t) →
    ∃ issue, issue ∈ (parse_items at_path start items).1 ∧
             (path issue = at_path ++ [Index (start + i)] ∨
              path issue = at_path ++ [Index (start + i); Key "text"]).
Proof.
  induction items as [|first items IH]; intros start i item Hi Hbad; [done|].
  cbn [parse_items].
  destruct (parse_items at_path (S start) items) as [issues values] eqn:Hrest.
  destruct i as [|i]; simpl in Hi.
  - injection Hi as ->.
    destruct (parse_option_bad (at_path ++ [Index start]) item Hbad)
      as (issue & -> & Hpath).
    exists issue. simpl. split; [by left|]. rewrite Nat.add_0_r.
    destruct Hpath as [->| ->]; [by left|right]. by rewrite <- app_assoc.
  - destruct (IH (S start) i item Hi Hbad) as (issue & Hin & Hpath).
    rewrite Hrest in Hin. simpl in Hin.
    replace (S start + i) with (start + S i) in Hpath by lia.
    exists issue. split; [|done].
    destruct (parse_option (at_path ++ [Index start]) (Some first)); simpl;
      [done|]. apply elem_of_app. by right.
Qed.

(** X23. The 400 answer names every option that is wrong.  For a JSON body
    that is an object whose [options] member is an array, each element at
    a position [i] that is not an object with a non-empty [text] makes the
    handler answer 400 with, among the validation errors, one whose path
    is [options, i] or [options, i, text]; the store is not touched. *)
Theorem POST_names_bad_option (members : list (string * Json))
    (items : list Json) (i : nat) (item : Json) (w : World) :
  member "options" members = Some (JArray items) →
  items !! i = Some item → (∀ t, ¬ option_with_text item t) →
  ∃ errors issue,
    POST (JsonBody (JObject members)) w
    = (mkHttp 400 (InvalidRequest "Invalid request data" errors), w) ∧
    issue ∈ errors ∧
    (path issue = [Key "options"; Index i] ∨
     path issue = [Key "options"; Index i; Key "text"]).
Proof.
  intros Ho Hi Hbad.
  destruct (parse_items_bad [Key "options"] items 0 i item Hi Hbad)
    as (issue & Hin & Hpath).
  assert (∃ all, parse_options [Key "options"] (member "options" members)
                 = Invalid all ∧ issue ∈ all) as (all & Hall & Hissue).
  { rewrite Ho. unfold parse_options.
    destruct (parse_items [Key "options"] 0 items) as [issues values].
    simpl in Hin.
    destruct ((if (length items <? 2)%nat
               then [mkIssue too_small [Key "options"]] else []) ++ issues)
      as [|x l] eqn:Hsum.
    - apply app_eq_nil in Hsum as [_ ->]. by apply elem_of_nil in Hin.
    - eexists. split; [reflexivity|]. rewrite <- Hsum.
      apply elem_of_app. by right. }
  unfold POST, pollSchema_parse, ret. rewrite Hall.
  exists (issues_of (parse_string_min 5 [Key "question"]
                       (member "question" members)) ++ all), issue.
  split_and!.
  - by destruct (parse_string_min 5 [Key "question"] (member "question" members)).
  - apply elem_of_app. by right.
  - done.
Qed.

Lemma POST_names_bad_option_witness :
  ∃ errors issue,
    POST (JsonBody
            (JObject [("question", JString "Tea or coffee?");
                      ("options", JArray [JObject [("text", JString "Tea")];
                                          JObject [("text", JString "")]])]))
         Scenario.fresh
    = (mkHttp 400 (InvalidRequest "Invalid request data" errors), Scenario.fresh) ∧
    issue ∈ errors ∧
    (path issue = [Key "options"; Index 1] ∨
     path issue = [Key "options"; Index 1; Key "text"]).
Proof.
  apply (POST_names_bad_option
           [("question", JString "Tea or coffee?");
            ("options", JArray [JObject [("text", JString "Tea")];
                                JObject [("text", JString "")]])]
           [JObject [("text", JString "Tea")]; JObject [("text", JString "")]]
           1 (JObject [("text", JString "")]) Scenario.fresh).
  - reflexivity.
  - reflexivity.
  - intros t (ms & Hobj & Ht & Hlen). injection Hobj as <-.
    cbn in Ht. injection Ht as <-. simpl in Hlen. lia.
Defined.
End endpoint_errors.

(** ** A vote stays cast *)

Lemma votes_by_filter_other (pollId userId id : string) (vs : list Vote) :
  id ≠ pollId →
  votes_by pollId userId (filter (λ v, vote_poll_id v ≠ id) vs)
  = votes_by pollId userId vs.
Proof.
  intros Hne. unfold votes_by. rewrite list_filter_filter.
  apply list_filter_iff. intros v. split; [tauto|].
  intros [Hp Hu]. split_and!; try done. congruence.
Qed.

Lemma deletePoll_votes (id userId : string) (w : World) :
  votes (deletePoll id userId w).2 = votes w ∨
  votes (deletePoll id userId w).2
  = filter (λ v, vote_poll_id v ≠ id) (votes w).
Proof.
  unfold deletePoll, bind.
  destruct (select_poll id w) as [rs w1] eqn:Hsel.
  apply select_poll_inv in Hsel as (_ & Hv & _). rewrite <- Hv.
  destruct (data rs) as [poll|]; [|by left].
  case_bool_decide; [by left|].
  unfold delete_votes, delete_poll_row, bind, round_trip, ret.
  destruct w1 as [ps vs nid ck os cs pe us]. simpl.
  destruct os as [|[] [|[] rest]]; simpl; rewrite ?filter_twice; by eauto.
Qed.

Lemma createPoll_votes (uuid new_question : string) (new_options : list string)
    (creator : string) (expiry : option Z) (public : option bool) (w : World) :
  votes (Polls.createPoll uuid new_question new_options creator expiry public w).2
  = votes w.
Proof.
  unfold Polls.createPoll.
  destruct (Polls.falsy (Polls.trim new_question)); [done|].
  destruct (length new_options <? 2)%nat; [done|].
  unfold bind, ret.
  destruct (Polls.insert_poll uuid new_question new_options creator expiry
                              (default true public) w) as [r w1] eqn:Hins.
  by apply insert_poll_inv in Hins as (Hv & _).
Qed.

(** No call other than a [deletePoll] of the poll takes a voter's vote
    away, and none adds a second one. *)
Lemma run_keeps_vote (c : Service.Call) (pollId userId : string) (w : World) :
  votes_by pollId userId (votes w) ≠ [] →
  (∀ u, c ≠ Service.DeletePoll pollId u) →
  votes_by pollId userId (votes (Service.run c w))
  = votes_by pollId userId (votes w).
Proof.
  intros Hcast Hkeep. destruct c; simpl.
  - destruct (submitVote pollId0 userId0 optionIndex w) as [r w'] eqn:Hsub.
    simpl. destruct (vote r) as [row|] eqn:Hrow.
    + destruct (submitVote_inv _ _ _ _ _ _ Hsub row Hrow)
        as (_ & _ & Hno & Hvs & Hkey & _).
      rewrite Hvs. unfold votes_by. rewrite filter_app, filter_cons_False.
      * by rewrite app_nil_r.
      * intros [Hp Hu]. unfold vote_key in Hkey.
        injection Hkey as Hp' Hu'. apply Hcast, votes_by_none.
        by rewrite <- Hp, <- Hu, Hp', Hu'.
    + destruct (submitVote_rejected_writes_nothing _ _ _ _ _ _ Hsub Hrow)
        as [-> _]. done.
  - destruct (hasUserVoted pollId0 userId0 w) as [b w'] eqn:Hv. simpl.
    by apply hasUserVoted_inv in Hv as (_ & -> & _).
  - destruct (getPollResults pollId0 w) as [r w'] eqn:Hget. simpl.
    apply getPollResults_inv in Hget as [-> _]. done.
  - done.
  - done.
  - unfold deliver. destruct (pending w) as [|p rest]; [done|].
    destruct (run_listeners_tables p (channels w) 0 (set_pending rest w))
      as [_ Hv].
    by rewrite Hv.
  - by rewrite createPoll_votes.
  - unfold Polls.getPollById, bind, ret.
    destruct (select_poll id w) as [r w'] eqn:Hsel. simpl.
    by apply select_poll_inv in Hsel as (_ & -> & _).
  - destruct (deletePoll_votes id userId0 w) as [->| ->]; [done|].
    apply votes_by_filter_other. intros ->. by destruct (Hkeep userId0).
Qed.

(** X3. A vote stays cast.  Once a submission of a voter on a poll has
    been accepted, then after any further calls of the service and
    deliveries of change events, under any pattern of lost requests, among
    them no [deletePoll] of that poll, a submission of that voter on that
    poll, whatever index it names, is turned away with [AlreadyVoted] when
    the store answers it, and writes nothing. *)
Theorem submitVote_again (pollId userId : string) (first second : Z)
    (w : World) (r : SubmitResult) (w1 : World) (calls : list Service.Call) :
  submitVote pollId userId first w = (r, w1) → is_Some (vote r) →
  Forall (λ c, ∀ u, c ≠ Service.DeletePoll pollId u) calls →
  outages (Service.after calls w1) = [] →
  submitVote pollId userId second (Service.after calls w1)
  = (rejected AlreadyVoted, Service.after calls w1).
Proof.
  intros Hsub [row Hrow] Hcalls Hans.
  destruct (submitVote_inv _ _ _ _ _ _ Hsub row Hrow) as (_ & Hby & _).
  assert (votes_by pollId userId (votes (Service.after calls w1)) = [row])
    as Hstill.
  { clear Hans Hsub. unfold Service.after. revert w1 Hby.
    induction Hcalls as [|c calls Hc _ IH]; intros w1 Hby; simpl; [done|].
    apply IH. rewrite run_keeps_vote; [done| |done]. by rewrite Hby. }
  rewrite submitVote_answered, submitVote_checks_answered by done.
  simpl. by rewrite Hstill.
Qed.

Lemma submitVote_again_witness :
  submitVote "P" "A" 1
    (Service.after
       [Service.SubmitVote "P" "B" 1; Service.Deliver;
        Service.DeletePoll "Q" "owner"; Service.GetPollResults "P"]
       Scenario.after_A)
  = (rejected AlreadyVoted,
     Service.after
       [Service.SubmitVote "P" "B" 1; Service.Deliver;
        Service.DeletePoll "Q" "owner"; Service.GetPollResults "P"]
       Scenario.after_A).
Proof.
  apply (submitVote_again "P" "A" 0 1 Scenario.fresh
           (mkSubmit (Some Scenario.vote_A) None) Scenario.after_A
           [Service.SubmitVote "P" "B" 1; Service.Deliver;
            Service.DeletePoll "Q" "owner"; Service.GetPollResults "P"]).
  - reflexivity.
  - exists Scenario.vote_A. reflexivity.
  - repeat constructor; intros u Hc; discriminate Hc.
  - reflexivity.
Defined.
